(** * Scatter: the point-cloud viewer of samplemap (src/scatter.ts)

    A shallow embedding of the [Scatter] class: the point store
    ([setPoints], [appendPoints]), the spatial grid ([rebuildGrid],
    [addToGrid]), the view transform and its event handlers (wheel, drag,
    click), selection ([setSelectedId], [centerOnSelected]), picking
    ([pick]) and the frame ([draw]); and of the two functions of the page
    (src/main.ts) that drive it: [loadCoords] and the [onPick] handler.

    JavaScript numbers are IEEE 754 binary64 values.  The program is written
    once, over an interface [JsNum] of the number operations the source
    uses; the instance [binary64] interprets it with Rocq's primitive
    floats: what the program computes.  A theorem stated for every [JsNum]
    holds of [binary64] in particular. *)

From Stdlib Require Import ZArith QArith Lia.
From Stdlib Require Import Floats.
From stdpp Require Import gmap list strings.

(** ** Numbers *)

(** The operations of JavaScript numbers that scatter.ts uses.  [cellname]
    is what a number looks like inside the template literal of a grid key:
    [to_name] stands for [Number::toString], which tells all numbers apart
    except [+0] and [-0]. *)
Class JsNum : Type := {
  num : Type;
  cellname : Type;
  cellname_eq_dec :: EqDecision cellname;
  cellname_countable :: Countable cellname;
  of_Z : Z → num;                 (* integer literals and loop counters *)
  lit : Q → num;                  (* decimal literals such as 0.05 *)
  nadd : num → num → num;
  nsub : num → num → num;
  nmul : num → num → num;
  ndiv : num → num → num;
  nneg : num → num;
  nlt : num → num → bool;
  nfloor : num → num;             (* Math.floor *)
  nsqrt : num → num;              (* Math.sqrt *)
  nsign : num → num;              (* Math.sign *)
  nhypot : num → num → num;       (* Math.hypot *)
  nmin : num → num → num;         (* Math.min *)
  nmax : num → num → num;         (* Math.max *)
  npow : num → num → num;         (* Math.pow, at the exponents -1, 0, 1 *)
  fround : num → num;             (* the value a Float32Array slot keeps *)
  to_name : num → cellname
}.

Declare Scope js_scope.
Delimit Scope js_scope with js.
Infix "+" := nadd : js_scope.
Infix "-" := nsub : js_scope.
Infix "*" := nmul : js_scope.
Infix "/" := ndiv : js_scope.
Notation "- x" := (nneg x) : js_scope.
Infix "<?" := nlt : js_scope.

(** *** binary64 *)

Module F64.
Import PrimFloat.

Definition of_Z (z : Z) : float :=
  SF2Prim (binary_normalize prec emax z 0 false).

(** A decimal literal [n/d]: numerator and denominator are exact for the
    literals of the source, and the division rounds once, to nearest. *)
Definition lit (q : Q) : float :=
  div (of_Z (Qnum q)) (of_Z (Zpos (Qden q))).

(** [Math.floor]: a float below [2^52] in magnitude goes through its
    integer part; a larger one is an integer already. *)
Definition floor (x : float) : float :=
  match Prim2SF x with
  | S754_finite s m e =>
      if (e <? 0)%Z
      then of_Z (Z.shiftr (cond_Zopp s (Zpos m)) (- e))
      else x
  | _ => x
  end.

Definition sign (x : float) : float :=
  match Prim2SF x with
  | S754_nan => nan
  | S754_zero _ => x
  | S754_infinity s | S754_finite s _ _ => if s then (-one)%float else one
  end.

(** [Math.hypot].  ECMAScript fixes its special cases (an infinite
    argument gives +Infinity, even beside a NaN; otherwise a NaN argument
    gives NaN; zeros alone give +0) and leaves the precision of the other
    results to the engine.  The application is a Tauri page and runs in
    the system's web view; this is the algorithm of V8, the engine of
    Chromium and of WebView2: the magnitudes are divided by the largest of
    them, their squares are added with Kahan's compensated summation, in
    the order of the arguments, and the square root of the sum is
    multiplied by the largest magnitude.  The theorems on [pick] are
    stated for every [nhypot]; only the evaluated instances read this
    definition. *)
Definition hypotStep (max : float) (acc : float * float) (absValue : float)
  : float * float :=
  let '(sum, compensation) := acc in
  let n := (absValue / max)%float in
  let summand := (n * n - compensation)%float in
  let preliminary := (sum + summand)%float in
  (preliminary, (preliminary - sum - summand)%float).

Definition hypot (a b : float) : float :=
  let absValues := [abs a; abs b] in
  let max := foldl (fun m v => if (m <? v)%float then v else m) zero absValues in
  if (max =? infinity)%float then infinity
  else if is_nan a || is_nan b then nan
  else if (max =? zero)%float then zero
  else (sqrt (foldl (hypotStep max) (zero, zero) absValues).1 * max)%float.

(** [Math.min] and [Math.max]: NaN if either argument is; [-0] is below
    [+0]. *)
Definition min (a b : float) : float :=
  if is_nan a || is_nan b then nan
  else if (a <? b)%float then a
  else if (b <? a)%float then b
  else if get_sign a then a else b.

Definition max (a b : float) : float :=
  if is_nan a || is_nan b then nan
  else if (a <? b)%float then b
  else if (b <? a)%float then a
  else if get_sign a then b else a.

(** [Math.pow base e] where [e] is [-Math.sign(deltaY)]: one of [-1],
    [-0], [+0], [1] or NaN.  Other exponents are outside this model and
    yield NaN. *)
Definition pow (base e : float) : float :=
  if is_zero e then one
  else if (e =? one)%float then base
  else if (e =? - one)%float then (one / base)%float
  else nan.

(** [Math.fround]: round to binary32 (24 bits, emax 128), to nearest even. *)
Definition fround (x : float) : float :=
  match Prim2SF x with
  | S754_finite s m e =>
      SF2Prim (binary_normalize 24 128 (cond_Zopp s (Zpos m)) e s)
  | _ => x
  end.

(** [Number::toString] up to a renaming of the strings: the sign of a zero
    is not shown, every other value has a string of its own. *)
Definition name : Type := option (bool * positive * Z) + option bool.

Definition to_name (x : float) : name :=
  match Prim2SF x with
  | S754_zero _ => inl None
  | S754_finite s m e => inl (Some (s, m, e))
  | S754_infinity s => inr (Some s)
  | S754_nan => inr None
  end.

(** The comparison of two finite floats of the same sign, as [SFcompare]
    makes it. *)
Definition cmp (e1 : Z) (m1 : positive) (e2 : Z) (m2 : positive) : comparison :=
  match Z.compare e1 e2 with
  | Lt => Lt
  | Gt => Gt
  | Eq => Pos.compare_cont Eq m1 m2
  end.

End F64.

#[export] Instance binary64 : JsNum := {|
  num := PrimFloat.float;
  cellname := F64.name;
  of_Z := F64.of_Z;
  lit := F64.lit;
  nadd := PrimFloat.add;
  nsub := PrimFloat.sub;
  nmul := PrimFloat.mul;
  ndiv := PrimFloat.div;
  nneg := PrimFloat.opp;
  nlt := PrimFloat.ltb;
  nfloor := F64.floor;
  nsqrt := PrimFloat.sqrt;
  nsign := F64.sign;
  nhypot := F64.hypot;
  nmin := F64.min;
  nmax := F64.max;
  npow := F64.pow;
  fround := F64.fround;
  to_name := F64.to_name
|}.

(** ** Exceptions *)

Inductive error := TypeError | RangeError.

(** What a call leaves: a value, or a thrown exception. *)
Inductive outcome (A : Type) : Type :=
  | Ok (a : A)
  | Throw (e : error).
Arguments Ok {A} a.
Arguments Throw {A} e.

(** [outcome] is a monad for stdpp's [x ← c; k]: an exception ends the
    computation. *)
#[export] Instance outcome_ret : MRet outcome := fun A a => Ok a.
#[export] Instance outcome_fmap : FMap outcome := fun A B f c =>
  match c with
  | Ok a => Ok (f a)
  | Throw e => Throw e
  end.
#[export] Instance outcome_bind : MBind outcome := fun A B k c =>
  match c with
  | Ok a => k a
  | Throw e => Throw e
  end.

(** ** The viewer *)

Section Scatter.
Context {N : JsNum}.
Local Open Scope js_scope.

(** [type Point = { id: number; x: number; y: number }]; ids are integers. *)
Record Point := { id : Z; x : num; y : num }.

(** The record of a [PickResult]; [null] is [None]. *)
Record PickHit := { hit_id : Z; hit_x : num; hit_y : num; distPx : num }.
Definition PickResult : Type := option PickHit.

(** A grid key: the two numbers of the string [`${gx},${gy}`]. *)
Definition GridKey : Type := cellname * cellname.

(** The WebGL calls of a frame, in the order they are issued. *)
Inductive Uniform := uScale | uTranslate | uPointSize | uColor.
Inductive GlCmd :=
  | Viewport (x0 y0 w h : num)
  | ClearColor (r g b a : num)
  | Clear
  | UseProgram
  | Uniform1f (u : Uniform) (a : num)
  | Uniform2f (u : Uniform) (a b : num)
  | Uniform3f (u : Uniform) (a b c : num)
  | BindVertexArray (bound : bool)
  | BindBuffer
  | BufferData (d : list num)
  | DrawArrays (first count : Z).

(** The fields of the class that the modelled methods read or write.
    Arrays are objects: [arrays] is the store of the [Point[]] arrays of
    the host program and of the viewer, and [points] is the reference the
    viewer holds ([setPoints] keeps the caller's array, [appendPoints]
    pushes onto it).  A reference without an entry is an empty array. *)
Record Scatter := {
  arrays : gmap nat (list Point);
  points : nat;
  data : list num;
  needsUpload : bool;
  idToIndex : gmap Z nat;
  scale : num;
  tx : num;
  ty : num;
  dragging : bool;
  lastX : num;
  lastY : num;
  selectedIndex : Z;
  grid : gmap GridKey (list nat);
  canvasWidth : num;
  canvasHeight : num
}.

Definition gridSize : num := lit 0.05.

(** The array behind a reference, and [this.points]. *)
Definition array (st : Scatter) (r : nat) : list Point :=
  default [] (arrays st !! r).
Definition thePoints (st : Scatter) : list Point := array st (points st).

(** Field updates. *)
Definition set_arrays (v : gmap nat (list Point)) (st : Scatter) : Scatter :=
  {| arrays := v; points := points st; data := data st;
     needsUpload := needsUpload st; idToIndex := idToIndex st;
     scale := scale st; tx := tx st; ty := ty st; dragging := dragging st;
     lastX := lastX st; lastY := lastY st; selectedIndex := selectedIndex st;
     grid := grid st; canvasWidth := canvasWidth st;
     canvasHeight := canvasHeight st |}.
Definition set_points (v : nat) (st : Scatter) : Scatter :=
  {| arrays := arrays st; points := v; data := data st;
     needsUpload := needsUpload st; idToIndex := idToIndex st;
     scale := scale st; tx := tx st; ty := ty st; dragging := dragging st;
     lastX := lastX st; lastY := lastY st; selectedIndex := selectedIndex st;
     grid := grid st; canvasWidth := canvasWidth st;
     canvasHeight := canvasHeight st |}.
Definition set_data (v : list num) (st : Scatter) : Scatter :=
  {| arrays := arrays st; points := points st; data := v;
     needsUpload := needsUpload st; idToIndex := idToIndex st;
     scale := scale st; tx := tx st; ty := ty st; dragging := dragging st;
     lastX := lastX st; lastY := lastY st; selectedIndex := selectedIndex st;
     grid := grid st; canvasWidth := canvasWidth st;
     canvasHeight := canvasHeight st |}.
Definition set_needsUpload (v : bool) (st : Scatter) : Scatter :=
  {| arrays := arrays st; points := points st; data := data st;
     needsUpload := v; idToIndex := idToIndex st;
     scale := scale st; tx := tx st; ty := ty st; dragging := dragging st;
     lastX := lastX st; lastY := lastY st; selectedIndex := selectedIndex st;
     grid := grid st; canvasWidth := canvasWidth st;
     canvasHeight := canvasHeight st |}.
Definition set_idToIndex (v : gmap Z nat) (st : Scatter) : Scatter :=
  {| arrays := arrays st; points := points st; data := data st;
     needsUpload := needsUpload st; idToIndex := v;
     scale := scale st; tx := tx st; ty := ty st; dragging := dragging st;
     lastX := lastX st; lastY := lastY st; selectedIndex := selectedIndex st;
     grid := grid st; canvasWidth := canvasWidth st;
     canvasHeight := canvasHeight st |}.
Definition set_view (s a b : num) (st : Scatter) : Scatter :=
  {| arrays := arrays st; points := points st; data := data st;
     needsUpload := needsUpload st; idToIndex := idToIndex st;
     scale := s; tx := a; ty := b; dragging := dragging st;
     lastX := lastX st; lastY := lastY st; selectedIndex := selectedIndex st;
     grid := grid st; canvasWidth := canvasWidth st;
     canvasHeight := canvasHeight st |}.
Definition set_drag (d : bool) (a b : num) (st : Scatter) : Scatter :=
  {| arrays := arrays st; points := points st; data := data st;
     needsUpload := needsUpload st; idToIndex := idToIndex st;
     scale := scale st; tx := tx st; ty := ty st; dragging := d;
     lastX := a; lastY := b; selectedIndex := selectedIndex st;
     grid := grid st; canvasWidth := canvasWidth st;
     canvasHeight := canvasHeight st |}.
Definition set_selectedIndex (v : Z) (st : Scatter) : Scatter :=
  {| arrays := arrays st; points := points st; data := data st;
     needsUpload := needsUpload st; idToIndex := idToIndex st;
     scale := scale st; tx := tx st; ty := ty st; dragging := dragging st;
     lastX := lastX st; lastY := lastY st; selectedIndex := v;
     grid := grid st; canvasWidth := canvasWidth st;
     canvasHeight := canvasHeight st |}.
Definition set_grid (v : gmap GridKey (list nat)) (st : Scatter) : Scatter :=
  {| arrays := arrays st; points := points st; data := data st;
     needsUpload := needsUpload st; idToIndex := idToIndex st;
     scale := scale st; tx := tx st; ty := ty st; dragging := dragging st;
     lastX := lastX st; lastY := lastY st; selectedIndex := selectedIndex st;
     grid := v; canvasWidth := canvasWidth st;
     canvasHeight := canvasHeight st |}.

(** The field initialisers of the class; the host's arrays are [h], the
    viewer's own [[]] sits behind the reference [own], and [resize] has
    given the canvas its size. *)
Definition init (h : gmap nat (list Point)) (own : nat) (w ht : num) : Scatter :=
  {| arrays := <[own := []]> h; points := own; data := [];
     needsUpload := false; idToIndex := ∅;
     scale := of_Z 1; tx := of_Z 0; ty := of_Z 0; dragging := false;
     lastX := of_Z 0; lastY := of_Z 0; selectedIndex := (-1)%Z;
     grid := ∅; canvasWidth := w; canvasHeight := ht |}.

(** *** The frame *)

Definition pointSize (st : Scatter) : num :=
  nmax (lit 1.5) (nmin (lit 6.0) (lit 3.0 / nsqrt (scale st))).

(** The guard of the highlight overlay (scatter.ts, line 297). *)
Definition overlayGuard (st : Scatter) : bool :=
  (0 <=? selectedIndex st)%Z
  && (selectedIndex st <? Z.of_nat (length (thePoints st)))%Z.

Definition draw (st : Scatter) : Scatter * list GlCmd :=
  let ps := pointSize st in
  (set_needsUpload false st,
   [ Viewport (of_Z 0) (of_Z 0) (canvasWidth st) (canvasHeight st);
     ClearColor (lit 0.06) (lit 0.06) (lit 0.06) (of_Z 1);
     Clear;
     UseProgram;
     Uniform2f uScale (scale st) (scale st);
     Uniform2f uTranslate (tx st) (ty st);
     Uniform1f uPointSize ps;
     Uniform3f uColor (lit 0.65) (lit 0.75) (lit 0.95);
     BindVertexArray true ]
   ++ (if needsUpload st then [BindBuffer; BufferData (data st)] else [])
   ++ [ DrawArrays 0 (Z.of_nat (length (thePoints st))) ]
   ++ (if overlayGuard st
       then [ Uniform1f uPointSize (ps * lit 1.8);
              Uniform3f uColor (lit 0.85) (lit 0.95) (lit 1.0);
              DrawArrays (selectedIndex st) 1 ]
       else [])
   ++ [ BindVertexArray false ]).

Definition invalidate (st : Scatter) : Scatter * list GlCmd := draw st.

(** The [drawArrays] calls of a frame, as (first, count). *)
Definition drawCalls (cmds : list GlCmd) : list (Z * Z) :=
  omap (fun c => match c with DrawArrays f n => Some (f, n) | _ => None end) cmds.

(** *** The spatial grid *)

(** The key of the cell a point lies in (lines 119-121 and 131-133). *)
Definition cellKey (p : Point) : GridKey :=
  let gx := nfloor (x p / gridSize) in
  let gy := nfloor (y p / gridSize) in
  (to_name gx, to_name gy).

(** [const arr = this.grid.get(key); if (arr) arr.push(i) else this.grid.set(key, [i])] *)
Definition gridPush (key : GridKey) (i : nat) (g : gmap GridKey (list nat))
  : gmap GridKey (list nat) :=
  match g !! key with
  | Some arr => <[key := arr ++ [i]]> g
  | None => <[key := [i]]> g
  end.

(** The loop [for (let i = start; i < this.points.length; i++)] of both
    [rebuildGrid] and [addToGrid], entered at index [i] with [rest] the
    points from [i] on. *)
Fixpoint gridLoop (i : nat) (rest : list Point) (g : gmap GridKey (list nat))
  : gmap GridKey (list nat) :=
  match rest with
  | [] => g
  | p :: rest' => gridLoop (S i) rest' (gridPush (cellKey p) i g)
  end.

Definition rebuildGrid (st : Scatter) : Scatter :=
  set_grid (gridLoop 0 (thePoints st) ∅) st.

Definition addToGrid (startIndex : nat) (st : Scatter) : Scatter :=
  set_grid (gridLoop startIndex (drop startIndex (thePoints st)) (grid st)) st.

(** *** The point store *)

(** [new Float32Array(n)]: [n] zeros. *)
Definition newFloat32Array (n : nat) : list num := replicate n (fround (of_Z 0)).

(** [target.set(source)]: copies [source] to the front of [target];
    a [RangeError] when it does not fit. *)
Definition typedSet (source target : list num) : outcome (list num) :=
  if (length source <=? length target)%nat
  then Ok (source ++ drop (length source) target)
  else Throw RangeError.

(** The loop of [setPoints] (lines 88-92), entered at index [i]. *)
Fixpoint setPointsLoop (i : nat) (rest : list Point)
    (d : list num) (m : gmap Z nat) : list num * gmap Z nat :=
  match rest with
  | [] => (d, m)
  | p :: rest' =>
      setPointsLoop (S i) rest'
        (<[(i * 2 + 1)%nat := fround (y p)]> (<[(i * 2 + 0)%nat := fround (x p)]> d))
        (<[id p := i]> m)
  end.

Definition setPoints (pts : nat) (st : Scatter) : Scatter * list GlCmd :=
  let st := set_points pts st in
  let st := set_data (newFloat32Array (length (array st pts) * 2)) st in
  let st := set_idToIndex ∅ st in
  let '(d, m) := setPointsLoop 0 (array st pts) (data st) (idToIndex st) in
  let st := set_idToIndex m (set_data d st) in
  let st := rebuildGrid st in
  let st := set_needsUpload true st in
  invalidate st.

(** The loop of [appendPoints] (lines 103-108): [base] is
    [this.points.length - pts.length]. *)
Fixpoint appendPointsLoop (base i : nat) (rest : list Point)
    (d : list num) (m : gmap Z nat) : list num * gmap Z nat :=
  match rest with
  | [] => (d, m)
  | p :: rest' =>
      let idx := ((base + i) * 2)%nat in
      appendPointsLoop base (S i) rest'
        (<[(idx + 1)%nat := fround (y p)]> (<[(idx + 0)%nat := fround (x p)]> d))
        (<[id p := (base + i)%nat]> m)
  end.

(** [appendPoints(pts)].  The call [this.points.push(...pts)] of line 100
    passes every point of the batch as an argument of its own, and an
    engine takes only as many arguments as its stack has room for: [fits]
    says whether the engine takes this call.  When it does not, the call
    throws a [RangeError] before [push] has run, and nothing has been
    written. *)
Definition appendPoints (pts : nat) (fits : bool) (st : Scatter)
  : outcome (Scatter * list GlCmd) :=
  if (length (array st pts) =? 0)%nat then Ok (st, [])
  else if negb fits then Throw RangeError
  else
    (* this.points.push(...pts): the spread is read before the push *)
    let st := set_arrays (<[points st := thePoints st ++ array st pts]> (arrays st)) st in
    let len := length (thePoints st) in
    newData ← typedSet (data st) (newFloat32Array (len * 2));
    let base := (len - length (array st pts))%nat in
    let '(d, m) := appendPointsLoop base 0 (array st pts) newData (idToIndex st) in
    let st := set_idToIndex m st in
    let st := set_data d st in
    let st := addToGrid base st in
    let st := set_needsUpload true st in
    Ok (invalidate st).

(** The calls that change the store, and a sequence of them. *)
Inductive StoreCall :=
  | SetPoints (pts : nat)
  | AppendPoints (pts : nat) (fits : bool).

Definition call (c : StoreCall) (st : Scatter) : outcome Scatter :=
  match c with
  | SetPoints pts => Ok (fst (setPoints pts st))
  | AppendPoints pts fits => fst <$> appendPoints pts fits st
  end.

Fixpoint calls (cs : list StoreCall) (st : Scatter) : outcome Scatter :=
  match cs with
  | [] => Ok st
  | c :: cs' => st' ← call c st; calls cs' st'
  end.

(** The viewer outlives a call that throws: the exception goes to the
    caller, and the next call finds the viewer as the failed one left it.
    The refused [push] of [appendPoints] throws before anything is written,
    so what it leaves is the state it found. *)
Definition settle (res : outcome Scatter) (st : Scatter) : Scatter :=
  match res with
  | Ok st' => st'
  | Throw _ => st
  end.

Definition callsThrough (cs : list StoreCall) (st : Scatter) : Scatter :=
  foldl (fun st c => settle (call c st) st) st cs.

(** The calls whose [push] the engine takes. *)
Definition callFits (c : StoreCall) : bool :=
  match c with
  | SetPoints _ => true
  | AppendPoints _ fits => fits
  end.

(** *** The view transform *)

(** [getBoundingClientRect()], and the fields of the events that the
    handlers read. *)
Record Rect := { rectLeft : num; rectTop : num; rectWidth : num; rectHeight : num }.
Record MouseEvent := { button : Z; clientX : num; clientY : num }.
Record WheelEvent := { deltaY : num; wheelX : num; wheelY : num }.

(** World to NDC (lines 244-245) and back (lines 174-175, 227-228). *)
Definition worldToNdc (st : Scatter) (wx wy : num) : num * num :=
  (wx * scale st + tx st, wy * scale st + ty st).

Definition ndcToWorld (st : Scatter) (nx ny : num) : num * num :=
  ((nx - tx st) / scale st, (ny - ty st) / scale st).

(** CSS pixels to NDC (lines 171-172, 224-225) and back (lines 247-248). *)
Definition screenPixelsToNdc (rect : Rect) (px py : num) : num * num :=
  ((px / rectWidth rect) * of_Z 2 - of_Z 1,
   - ((py / rectHeight rect) * of_Z 2 - of_Z 1)).

Definition ndcToScreenPixels (rect : Rect) (sx sy : num) : num * num :=
  (((sx + of_Z 1) * lit 0.5) * rectWidth rect,
   ((- sy + of_Z 1) * lit 0.5) * rectHeight rect).

(** The handlers of [attachEvents]. *)
Definition onMouseDown (e : MouseEvent) (st : Scatter) : Scatter :=
  if (button e =? 2)%Z then set_drag true (clientX e) (clientY e) st else st.

Definition onMouseUp (st : Scatter) : Scatter :=
  set_drag false (lastX st) (lastY st) st.

Definition onMouseMove (e : MouseEvent) (rect : Rect) (st : Scatter)
  : Scatter * list GlCmd :=
  if negb (dragging st) then (st, [])
  else
    let dx := clientX e - lastX st in
    let dy := clientY e - lastY st in
    let st := set_drag (dragging st) (clientX e) (clientY e) st in
    let nx := (of_Z 2 * dx) / rectWidth rect in
    let ny := (- of_Z 2 * dy) / rectHeight rect in
    invalidate (set_view (scale st) (tx st + nx) (ty st + ny) st).

(** The multiplier of one wheel notch. *)
Definition zoomStep (e : WheelEvent) : num :=
  let delta := nsign (deltaY e) in
  npow (lit 1.1) (- delta).

(** The cursor of a wheel event, in NDC. *)
Definition wheelCursor (e : WheelEvent) (rect : Rect) : num * num :=
  screenPixelsToNdc rect (wheelX e - rectLeft rect) (wheelY e - rectTop rect).

Definition onWheel (e : WheelEvent) (rect : Rect) (st : Scatter)
  : Scatter * list GlCmd :=
  let zoom := zoomStep e in
  let '(sx, sy) := wheelCursor e rect in
  let '(wx, wy) := ndcToWorld st sx sy in
  let scale' := scale st * zoom in
  invalidate (set_view scale' (sx - wx * scale') (sy - wy * scale') st).

(** *** Selection *)

Definition setSelectedId (oid : option Z) (st : Scatter) : Scatter * list GlCmd :=
  match oid with
  | None => invalidate (set_selectedIndex (-1) st)
  | Some i =>
      let idx := idToIndex st !! i in
      invalidate
        (set_selectedIndex
           (match idx with Some k => Z.of_nat k | None => (-1)%Z end) st)
  end.

(** The eased transition that [centerOnSelected] starts: the variables the
    closure [step] has captured. *)
Record Transition := {
  startTx : num; startTy : num;
  targetTx : num; targetTy : num;
  t0 : num
}.

Definition dur : num := of_Z 150.

(** [centerOnSelected(smooth)], called when [performance.now()] is [now]:
    the state it leaves, the frame it draws, and the transition it has
    handed to [requestAnimationFrame], if any. *)
Definition centerOnSelected (smooth : bool) (now : num) (st : Scatter)
  : outcome (Scatter * list GlCmd * option Transition) :=
  if (selectedIndex st <? 0)%Z then Ok (st, [], None)
  else
    match thePoints st !! Z.to_nat (selectedIndex st) with
    | None => Throw TypeError       (* p is undefined: p.x throws *)
    | Some p =>
        let targetTx := - x p * scale st in
        let targetTy := - y p * scale st in
        if negb smooth
        then let '(st', cmds) := invalidate (set_view (scale st) targetTx targetTy st) in
             Ok (st', cmds, None)
        else Ok (st, [],
                 Some {| startTx := tx st; startTy := ty st;
                         targetTx := targetTx; targetTy := targetTy;
                         t0 := now |})
    end.

(** The elapsed fraction and the eased fraction of a frame. *)
Definition fraction (tr : Transition) (now : num) : num :=
  nmin (of_Z 1) ((now - t0 tr) / dur).

Definition ease (t : num) : num := t * (of_Z 2 - t).

(** One run of the closure [step], at time [now]: the state, the frame,
    and whether it asks for another animation frame. *)
Definition step (tr : Transition) (now : num) (st : Scatter)
  : Scatter * list GlCmd * bool :=
  let t := fraction tr now in
  let e := ease t in
  let st := set_view (scale st)
              (startTx tr + (targetTx tr - startTx tr) * e)
              (startTy tr + (targetTy tr - startTy tr) * e) st in
  (invalidate st, t <? of_Z 1).

(** *** Picking *)

(** The record that lines 243-253 build for a point. *)
Definition candidateHit (st : Scatter) (rect : Rect) (px py : num) (p : Point)
  : PickHit :=
  let '(sx2, sy2) := worldToNdc st (x p) (y p) in
  let '(px2, py2) := ndcToScreenPixels rect sx2 sy2 in
  let dxp := px2 - px in
  let dyp := py2 - py in
  let d := nhypot dxp dyp in
  {| hit_id := id p; hit_x := x p; hit_y := y p; distPx := d |}.

(** [if (!best || d < best.distPx) best = hit] (line 252). *)
Definition choose (best : PickResult) (hit : PickHit) : PickResult :=
  match best with
  | None => Some hit
  | Some b => if distPx hit <? distPx b then Some hit else best
  end.

(** The body of the loop over a cell's indices (lines 243-254). *)
Definition consider (st : Scatter) (rect : Rect) (px py : num)
    (best : PickResult) (i : nat) : outcome PickResult :=
  match thePoints st !! i with
  | None => Throw TypeError       (* p is undefined: p.x throws *)
  | Some p => Ok (choose best (candidateHit st rect px py p))
  end.

Fixpoint scanCell (st : Scatter) (rect : Rect) (px py : num)
    (arr : list nat) (best : PickResult) : outcome PickResult :=
  match arr with
  | [] => Ok best
  | i :: arr' =>
      best' ← consider st rect px py best i;
      scanCell st rect px py arr' best'
  end.

(** The test of line 239 that skips the inside of the square. *)
Definition ringSkip (r dx dy : Z) : bool :=
  (0 <? r)%Z && negb (Z.abs dx =? r)%Z && negb (Z.abs dy =? r)%Z.

(** The offsets [(dx, dy)] whose cell is looked up at radius [r], in the
    order of the two loops of lines 236-237. *)
Definition ring (r : Z) : list (Z * Z) :=
  dy ← seqZ (- r) (2 * r + 1);
  dx ← seqZ (- r) (2 * r + 1);
  if ringSkip r dx dy then [] else [(dx, dy)].

(** The key looked up at an offset from the cell [(gx, gy)] (line 240). *)
Definition keyAt (gx gy : num) (d : Z * Z) : GridKey :=
  (to_name (gx + of_Z d.1), to_name (gy + of_Z d.2)).

Fixpoint scanRing (st : Scatter) (rect : Rect) (px py gx gy : num)
    (cells : list (Z * Z)) (best : PickResult) : outcome PickResult :=
  match cells with
  | [] => Ok best
  | d :: cells' =>
      match grid st !! keyAt gx gy d with
      | None => scanRing st rect px py gx gy cells' best
      | Some arr =>
          best' ← scanCell st rect px py arr best;
          scanRing st rect px py gx gy cells' best'
      end
  end.

Definition maxR : Z := 48.

(** The loop over the radius, entered at [r] with [n] rounds to go. *)
Fixpoint pickFrom (st : Scatter) (rect : Rect) (px py gx gy : num)
    (n : nat) (r : Z) (best : PickResult) : outcome PickResult :=
  match n with
  | O => Ok best
  | S n' =>
      best' ← scanRing st rect px py gx gy (ring r) best;
      match best' with
      | Some _ => Ok best'          (* if (best) break *)
      | None => pickFrom st rect px py gx gy n' (r + 1) best'
      end
  end.

(** The cell of the query (lines 224-231). *)
Definition queryCell (px py : num) (rect : Rect) (st : Scatter) : num * num :=
  let '(sx, sy) := screenPixelsToNdc rect px py in
  let '(wx, wy) := ndcToWorld st sx sy in
  (nfloor (wx / gridSize), nfloor (wy / gridSize)).

Definition pick (px py : num) (rect : Rect) (st : Scatter) : outcome PickResult :=
  let '(gx, gy) := queryCell px py rect st in
  pickFrom st rect px py gx gy (Z.to_nat (maxR + 1)) 0 None.

(** The click handler: what it hands to [onPick]. *)
Definition onClick (e : MouseEvent) (rect : Rect) (st : Scatter) : outcome PickResult :=
  let px := clientX e - rectLeft rect in
  let py := clientY e - rectTop rect in
  pick px py rect st.

(** *** The life of a viewer *)

(** What can happen to a viewer: a call of the host, an input event, or an
    animation frame of a transition. *)
Inductive Event :=
  | CallSetPoints (pts : nat)
  | CallAppendPoints (pts : nat) (fits : bool)
  | CallSetSelectedId (oid : option Z)
  | CallCenterOnSelected (smooth : bool) (now : num)
  | MouseDown (e : MouseEvent)
  | MouseUp
  | MouseMove (e : MouseEvent) (rect : Rect)
  | Wheel (e : WheelEvent) (rect : Rect)
  | Frame (tr : Transition) (now : num).

Definition react (ev : Event) (st : Scatter) : outcome Scatter :=
  match ev with
  | CallSetPoints pts => Ok (setPoints pts st).1
  | CallAppendPoints pts fits => fst <$> appendPoints pts fits st
  | CallSetSelectedId oid => Ok (setSelectedId oid st).1
  | CallCenterOnSelected smooth now =>
      (fun res : Scatter * list GlCmd * option Transition => res.1.1)
        <$> centerOnSelected smooth now st
  | MouseDown e => Ok (onMouseDown e st)
  | MouseUp => Ok (onMouseUp st)
  | MouseMove e rect => Ok (onMouseMove e rect st).1
  | Wheel e rect => Ok (onWheel e rect st).1
  | Frame tr now => Ok (step tr now st).1.1
  end.

Fixpoint run (evs : list Event) (st : Scatter) : outcome Scatter :=
  match evs with
  | [] => Ok st
  | ev :: evs' => st' ← react ev st; run evs' st'
  end.

End Scatter.

Arguments Point : clear implicits.
Arguments Scatter : clear implicits.
Arguments GlCmd : clear implicits.
Arguments Rect : clear implicits.
Arguments MouseEvent : clear implicits.
Arguments WheelEvent : clear implicits.
Arguments PickHit : clear implicits.
Arguments PickResult : clear implicits.
Arguments Transition : clear implicits.
Arguments Event : clear implicits.

(** * The vocabulary of the properties *)

(** ** The order of numbers *)

(** What picking needs of [<]: it is irreflexive and transitive. *)
Class JsOrder (N : JsNum) : Prop := {
  nlt_irrefl : ∀ a : num, nlt a a = false;
  nlt_trans : ∀ a b c : num, nlt a b = true → nlt b c = true → nlt a c = true
}.

(** ** The store, the grid and the candidates of a pick *)

Section Vocabulary.
Context {N : JsNum}.
Implicit Types (st : Scatter N) (p : Point N) (pts rest : list (Point N))
  (rect : Rect N).

(** The packed buffer of a sequence of points. *)
Definition dataOf pts : list num :=
  p ← pts; [fround (x p); fround (y p)].

(** The index of the last point of a sequence that carries the id [k]. *)
Fixpoint lastOcc (k : Z) pts : option nat :=
  match pts with
  | [] => None
  | p :: rest =>
      match lastOcc k rest with
      | Some j => Some (S j)
      | None => if decide (id p = k) then Some 0%nat else None
      end
  end.

(** An index is listed under a key of the grid. *)
Definition inCell (g : gmap GridKey (list nat)) (key : GridKey) (i : nat) : Prop :=
  ∃ arr, g !! key = Some arr ∧ i ∈ arr.

(** The three structures agree with the sequence of points. *)
Record StoreInv st : Prop := {
  inv_data : data st = dataOf (thePoints st);
  inv_map : ∀ k, idToIndex st !! k = lastOcc k (thePoints st);
  inv_grid : ∀ key i,
    inCell (grid st) key i ↔ ∃ p, thePoints st !! i = Some p ∧ cellKey p = key
}.

(** The indices listed in the cells at the offsets [cells] from (gx, gy),
    in the order they are scanned. *)
Definition candidatesAt st (gx gy : num) (cells : list (Z * Z)) : list nat :=
  d ← cells; default [] (grid st !! keyAt gx gy d).

(** The candidates of the ring of radius [r] around the cell of the query. *)
Definition candidates st rect (px py : num) (r : Z) : list nat :=
  candidatesAt st (queryCell px py rect st).1 (queryCell px py rect st).2 (ring r).

(** The records of the points at a list of indices. *)
Definition hitsOf st rect (px py : num) (idxs : list nat) : list (PickHit N) :=
  omap (fun i => candidateHit st rect px py <$> thePoints st !! i) idxs.

(** Two states show the same points under the same view. *)
Definition sameScene st st' : Prop :=
  thePoints st' = thePoints st
  ∧ scale st' = scale st ∧ tx st' = tx st ∧ ty st' = ty st.

(** Two grids agree on the cells of the rings of radius 0 to [R] around the
    cell of the query. *)
Definition sameCells st st' rect (px py : num) (R : Z) : Prop :=
  ∀ r d, (0 ≤ r ≤ R)%Z → d ∈ ring r →
    grid st' !! keyAt (queryCell px py rect st).1 (queryCell px py rect st).2 d
    = grid st !! keyAt (queryCell px py rect st).1 (queryCell px py rect st).2 d.

(** Every index of the grid is the index of a point. *)
Definition gridValid st : Prop :=
  ∀ key arr i, grid st !! key = Some arr → i ∈ arr → is_Some (thePoints st !! i).

(** The id→index map of a state gives, for an id, the index of the last
    point of [pts] that carries it. *)
Definition latestWins st pts : Prop :=
  ∀ k i, idToIndex st !! k = Some i ↔
    (∃ p, pts !! i = Some p ∧ id p = k)
    ∧ ∀ j q, (i < j)%nat → pts !! j = Some q → id q ≠ k.

(** *** What a pick is about, in the words of its specification *)

Local Open Scope js_scope.

(** The cell of the query: the pixel (px, py) of the canvas, in CSS pixels,
    is taken to NDC, the NDC point to the world by the inverse of the view
    transform, and the world point to the cell of the grid it lies in. *)
Definition cellOfQuery st rect (px py : num) : num * num :=
  let sx := (px / rectWidth rect) * of_Z 2 - of_Z 1 in
  let sy := - ((py / rectHeight rect) * of_Z 2 - of_Z 1) in
  let wx := (sx - tx st) / scale st in
  let wy := (sy - ty st) / scale st in
  (nfloor (wx / lit 0.05), nfloor (wy / lit 0.05)).

(** The key of the cell [dx] columns and [dy] rows from the cell of the
    query. *)
Definition keyOfCell st rect (px py : num) (dx dy : Z) : GridKey :=
  (to_name ((cellOfQuery st rect px py).1 + of_Z dx),
   to_name ((cellOfQuery st rect px py).2 + of_Z dy)).

(** The index [i] is listed in a cell of the ring of radius [r] around the
    cell of the query: a cell at the offset (dx, dy) with
    max(|dx|, |dy|) = r. *)
Definition inRing st rect (px py : num) (r : Z) (i : nat) : Prop :=
  ∃ dx dy arr, Z.max (Z.abs dx) (Z.abs dy) = r
    ∧ grid st !! keyOfCell st rect px py dx dy = Some arr ∧ i ∈ arr.

(** The distance on the screen, in CSS pixels, between the pixel (px, py)
    and the place the point [p] is shown at under the view transform. *)
Definition screenDistance st rect (px py : num) p : num :=
  let sx := x p * scale st + tx st in
  let sy := y p * scale st + ty st in
  let qx := ((sx + of_Z 1) * lit 0.5) * rectWidth rect in
  let qy := ((- sy + of_Z 1) * lit 0.5) * rectHeight rect in
  nhypot (qx - px) (qy - py).

(** The record a pick returns for the point [p]. *)
Definition hitOf st rect (px py : num) p : PickHit N :=
  {| hit_id := id p; hit_x := x p; hit_y := y p;
     distPx := screenDistance st rect px py p |}.

End Vocabulary.

(** What a pick reports: the id and the pixel distance. *)
Definition picked {N : JsNum} (res : outcome (PickResult N)) : outcome (option (Z * num)) :=
  (fun r : PickResult N => (fun h => (hit_id h, distPx h)) <$> r) <$> res.

(** ** Concrete inputs, in binary64 *)

Module Scenario.
Import PrimFloat.

Definition pt (i : Z) (a b : float) : Point binary64 := @Build_Point binary64 i a b.

(** Two points with the same id. *)
Definition dupIds : list (Point binary64) := [pt 1 0 0; pt 1 0.5 0.5].

(** The two points of the pick example. *)
Definition pair78 : list (Point binary64) :=
  [pt 7 0 0; pt 8 (F64.lit 0.9) (F64.lit 0.9)].

(** One point at x = 0.1. *)
Definition single : list (Point binary64) := [pt 3 (F64.lit 0.1) 0].

(** The arrays of the host, and a viewer on an 800 x 600 canvas. *)
Definition hostArrays : gmap nat (list (Point binary64)) :=
  {[ 1%nat := dupIds; 2%nat := pair78; 3%nat := single ]}.

Definition start : Scatter binary64 :=
  @init binary64 hostArrays 0%nat (F64.of_Z 800) (F64.of_Z 600).

Definition rect : Rect binary64 :=
  @Build_Rect binary64 0%float 0%float (F64.of_Z 800) (F64.of_Z 600).

(** [pair78] loaded and id 8 selected; then [dupIds] loaded over it. *)
Definition selected8 : Scatter binary64 :=
  (setSelectedId (Some 8%Z) (setPoints 2%nat start).1).1.

Definition replaced : Scatter binary64 * list (GlCmd binary64) :=
  setPoints 1%nat selected8.

(** A drag of 120 pixels to the right with the secondary button: the
    translation becomes 0.3. *)
Definition drag120 (st : Scatter binary64) : Scatter binary64 :=
  (onMouseMove (@Build_MouseEvent binary64 2%Z (F64.of_Z 120) 0%float) rect
     (onMouseDown (@Build_MouseEvent binary64 2%Z 0%float 0%float) st)).1.

Definition panned : Scatter binary64 := drag120 start.

(** The point at x = 0.1 loaded and selected, then the drag. *)
Definition selected3 : Scatter binary64 :=
  drag120 (setSelectedId (Some 3%Z) (setPoints 3%nat start).1).1.

(** One wheel notch towards the user's view (zoom in), one pixel from the
    left edge of the canvas. *)
Definition notch : WheelEvent binary64 :=
  @Build_WheelEvent binary64 (F64.of_Z (-100)) (F64.of_Z 1) (F64.of_Z 300).

End Scenario.

(** ** More vocabulary: frames, uploads and the order of a cell *)

Section MoreVocabulary.
Context {N : JsNum}.
Implicit Types (st : Scatter N).

(** The buffers a frame uploads, in order. *)
Definition uploads (cmds : list (GlCmd N)) : list (list num) :=
  omap (fun c => match c with BufferData d => Some d | _ => None end) cmds.

(** The WebGL calls an event issues (the frame it draws, if it draws). *)
Definition frame (ev : Event N) st : outcome (list (GlCmd N)) :=
  match ev with
  | CallSetPoints pts => Ok (setPoints pts st).2
  | CallAppendPoints pts fits => snd <$> appendPoints pts fits st
  | CallSetSelectedId oid => Ok (setSelectedId oid st).2
  | CallCenterOnSelected smooth now =>
      (fun res : Scatter N * list (GlCmd N) * option (Transition N) => res.1.2)
        <$> centerOnSelected smooth now st
  | MouseDown e => Ok []
  | MouseUp => Ok []
  | MouseMove e rect => Ok (onMouseMove e rect st).2
  | Wheel e rect => Ok (onWheel e rect st).2
  | Frame tr now => Ok (step tr now st).1.2
  end.

(** The calls of the host that change the store. *)
Definition isStoreCall (ev : Event N) : bool :=
  match ev with
  | CallSetPoints _ | CallAppendPoints _ _ => true
  | _ => false
  end.

(** A list of indices in strictly increasing order. *)
Definition increasing (arr : list nat) : Prop :=
  ∀ i j a b, (i < j)%nat → arr !! i = Some a → arr !! j = Some b → (a < b)%nat.

(** The indices of every cell are in increasing order. *)
Definition gridSorted st : Prop :=
  ∀ key arr, grid st !! key = Some arr → increasing arr.

(** The selection is none (negative) or the index of a current point. *)
Definition selValid st : Prop :=
  (selectedIndex st < Z.of_nat (length (thePoints st)))%Z.

Definition isSetPoints (ev : Event N) : bool :=
  match ev with
  | CallSetPoints _ => true
  | _ => false
  end.

(** The events whose [push], if they have one, the engine takes. *)
Definition eventFits (ev : Event N) : bool :=
  match ev with
  | CallAppendPoints _ fits => fits
  | _ => true
  end.

(** The mouse events of a pointer that moves, or presses a button other
    than the secondary one. *)
Definition idleMouse (ev : Event N) : bool :=
  match ev with
  | MouseDown e => negb (button e =? 2)%Z
  | MouseUp | MouseMove _ _ => true
  | _ => false
  end.

(** Where a world point is shown, in CSS pixels of the canvas (the
    projection of lines 244-248). *)
Definition pixelOf st (rect : Rect N) (wx wy : num) : num * num :=
  let '(sx, sy) := worldToNdc st wx wy in
  ndcToScreenPixels rect sx sy.

End MoreVocabulary.

(** ** The page (src/main.ts) *)

(** What [await invoke(...)] gives: the value the backend resolved with, or
    a rejection, which the [await] throws. *)
Inductive reply (A : Type) : Type :=
  | Resolved (a : A)
  | Rejected.
Arguments Resolved {A} a.
Arguments Rejected {A}.

(** The commands of [onPick] to the backend. *)
Inductive Invoke :=
  | GetFileInfo (fileId : Z)
  | PlayFile (path : string)
  | CopyToClipboard (text : string).

#[export] Instance Invoke_eq_dec : EqDecision Invoke.
Proof. solve_decision. Defined.

Section Page.
Context {N : JsNum}.

(** A row of [get_coords] (line 53). *)
Record Row := { fileId : Z; rowX : num; rowY : num }.

(** [{ id: r.fileId, x: r.x, y: r.y }] (line 55). *)
Definition toPoint (r : Row) : Point N := {| id := fileId r; x := rowX r; y := rowY r |}.

Definition page : nat := Z.to_nat 50000.

(** The loop of [loadCoords] (lines 52-57), entered with the offset [off]
    and the points [pts] read so far.  [get_coords k offset limit] is the
    reply of the backend to the request number [k] of this load; [asked]
    collects the offsets requested.  The loop ends when a reply is empty or
    a request is rejected; the result is [None] when [fuel] requests were
    not enough. *)
Fixpoint loadLoop (get_coords : nat → nat → nat → reply (list Row))
    (fuel k off : nat) (pts : list (Point N)) (asked : list nat)
  : option (reply (list (Point N)) * list nat) :=
  match fuel with
  | O => None
  | S fuel' =>
      match get_coords k off page with
      | Rejected => Some (Rejected, asked ++ [off])
      | Resolved rows =>
          if (length rows =? 0)%nat then Some (Resolved pts, asked ++ [off])
          else loadLoop get_coords fuel' (S k) (off + length rows)
                 (pts ++ (toPoint <$> rows)) (asked ++ [off])
      end
  end.

(** The variables of the page that the two functions use. *)
Record Page := {
  scatter : Scatter N;
  idToPath : gmap Z string;
  currentPath : option string;
  selPathText : string          (* selPathEl.textContent *)
}.

(** Lines 58-60, which run without a break once the loop has ended: the
    array [pts] is new, it becomes the viewer's own, and the cache of paths
    is cleared. *)
Definition finishLoad (pts : list (Point N)) (pg : Page) : Page :=
  let sc := scatter pg in
  let r := fresh (dom (arrays sc)) in
  let sc := set_arrays (<[r := pts]> (arrays sc)) sc in
  {| scatter := (setPoints r sc).1; idToPath := ∅;
     currentPath := currentPath pg; selPathText := selPathText pg |}.

(** [loadCoords()]; [pg] is the page when the last reply arrives. *)
Definition loadCoords (get_coords : nat → nat → nat → reply (list Row))
    (fuel : nat) (pg : Page) : option (reply Page) :=
  match loadLoop get_coords fuel 0 0 [] [] with
  | None => None
  | Some (Rejected, _) => Some Rejected
  | Some (Resolved pts, _) => Some (Resolved (finishLoad pts pg))
  end.

(** [!path] is true of [undefined] and of the empty string. *)
Definition truthy (path : option string) : option string :=
  match path with
  | Some p => if String.eqb p "" then None else Some p
  | None => None
  end.

(** Lines 140-143: the file is played; when that succeeds the path is
    shown, remembered and copied (whether the copy fails is ignored). *)
Definition playPath (play : reply unit) (path : string) (pg : Page)
  : Page * list Invoke :=
  match play with
  | Rejected => (pg, [PlayFile path])
  | Resolved _ =>
      ({| scatter := scatter pg; idToPath := idToPath pg;
          currentPath := Some path;
          selPathText := "Selected: " +:+ path |},
       [PlayFile path; CopyToClipboard path])
  end.

(** One task of the play queue (lines 132-147), for the hit [hit]: [info]
    is the reply [get_file_info] gives if it is asked, [play] the reply of
    [play_file].  The result is the page and the commands sent. *)
Definition pickTask (info : reply string) (play : reply unit)
    (hit : PickHit N) (pg : Page) : Page * list Invoke :=
  match truthy (idToPath pg !! hit_id hit) with
  | Some path => playPath play path pg
  | None =>
      match info with
      | Rejected => (pg, [GetFileInfo (hit_id hit)])
      | Resolved path =>
          let pg := {| scatter := scatter pg;
                       idToPath := <[hit_id hit := path]> (idToPath pg);
                       currentPath := currentPath pg;
                       selPathText := selPathText pg |} in
          let '(pg', sent) := playPath play path pg in
          (pg', GetFileInfo (hit_id hit) :: sent)
      end
  end.

(** [scatter.onPick] (lines 130-148): nothing is queued for [null]. *)
Definition onPick (info : reply string) (play : reply unit)
    (res : PickResult N) (pg : Page) : Page * list Invoke :=
  match res with
  | None => (pg, [])
  | Some hit => pickTask info play hit pg
  end.

(** The tasks of the play queue run one after the other, in the order of
    the picks. *)
Fixpoint onPicks (picks : list (reply string * reply unit * PickResult N))
    (pg : Page) : Page * list Invoke :=
  match picks with
  | [] => (pg, [])
  | (info, play, res) :: picks' =>
      let '(pg1, sent1) := onPick info play res pg in
      let '(pg2, sent2) := onPicks picks' pg1 in
      (pg2, sent1 ++ sent2)
  end.

End Page.

Arguments Row : clear implicits.
Arguments Page : clear implicits.

(** * Properties *)

(** ** The binary64 operations on known values *)

(** The decimal literals of the source are the doubles JavaScript reads:
    0.05, 1.1, 0.1 and 0.5, here in hexadecimal. *)
Example F64_literals :
  F64.lit 0.05 = 0x1.999999999999ap-5%float
  ∧ F64.lit 1.1 = 0x1.199999999999ap+0%float
  ∧ F64.lit 0.1 = 0x1.999999999999ap-4%float
  ∧ F64.lit 0.5 = 0.5%float
  ∧ F64.of_Z (-7) = (-7)%float.
Proof. vm_compute. repeat split; reflexivity. Qed.

(** [Math.floor] rounds towards minus infinity and keeps [-0] and the
    infinities. *)
Example F64_floor_values :
  F64.floor 2.5%float = 2%float
  ∧ F64.floor (-2.5)%float = (-3)%float
  ∧ F64.floor 0.25%float = 0%float
  ∧ F64.floor (-0.25)%float = (-1)%float
  ∧ F64.floor (-0)%float = (-0)%float
  ∧ F64.floor PrimFloat.infinity = PrimFloat.infinity
  ∧ F64.floor (F64.of_Z (10 ^ 300)) = F64.of_Z (10 ^ 300).
Proof. vm_compute. repeat split; reflexivity. Qed.

(** [Math.fround(0.1)] is 0.10000000149011612; a double beyond the range of
    binary32 becomes infinite. *)
Example F64_fround_values :
  F64.fround (F64.lit 0.1) = 0x1.99999ap-4%float
  ∧ F64.fround 0.5%float = 0.5%float
  ∧ F64.fround (F64.of_Z (10 ^ 300)) = PrimFloat.infinity.
Proof. vm_compute. repeat split; reflexivity. Qed.

(** One wheel notch: 1.1 when [deltaY] is negative, 1/1.1 =
    0.9090909090909091 when it is positive, 1 when it is zero. *)
Example F64_zoomStep_values :
  @zoomStep binary64 (@Build_WheelEvent binary64 (-100)%float 0%float 0%float) = F64.lit 1.1
  ∧ @zoomStep binary64 (@Build_WheelEvent binary64 100%float 0%float 0%float)
    = 0x1.d1745d1745d17p-1%float
  ∧ @zoomStep binary64 (@Build_WheelEvent binary64 0%float 0%float 0%float) = 1%float.
Proof. vm_compute. repeat split; reflexivity. Qed.

(** [Math.min] and [Math.max] on ordinary values, zeros and NaN; the point
    size at scale 1 is 3. *)
Example F64_min_max_values :
  F64.min 1%float 1.5%float = 1%float
  ∧ F64.max 1.5%float 3%float = 3%float
  ∧ F64.min 0%float (-0)%float = (-0)%float
  ∧ F64.max (-0)%float 0%float = 0%float
  ∧ F64.max PrimFloat.nan 1%float = PrimFloat.nan
  ∧ @pointSize binary64 Scenario.start = 3%float.
Proof. vm_compute. repeat split; reflexivity. Qed.

(** [Math.hypot]: 3 and 4 give 5; the scaling keeps 1e200 and 1e200 from
    overflowing, where the squares themselves would; an infinite argument
    wins over NaN; zeros give +0. *)
Example F64_hypot_values :
  F64.hypot 3%float 4%float = 5%float
  ∧ F64.hypot (-7)%float 0%float = 7%float
  ∧ F64.hypot (F64.of_Z (10 ^ 200)) (F64.of_Z (10 ^ 200))
    = PrimFloat.mul (PrimFloat.sqrt 2%float) (F64.of_Z (10 ^ 200))
  ∧ PrimFloat.mul (F64.of_Z (10 ^ 200)) (F64.of_Z (10 ^ 200)) = PrimFloat.infinity
  ∧ F64.hypot PrimFloat.nan PrimFloat.infinity = PrimFloat.infinity
  ∧ F64.hypot PrimFloat.nan 1%float = PrimFloat.nan
  ∧ F64.hypot 0%float (-0)%float = 0%float.
Proof. vm_compute. repeat split; reflexivity. Qed.

(** Both zeros have the same name in a grid key, as ["0"]. *)
Example F64_zero_names :
  F64.to_name (F64.floor (PrimFloat.div (-0)%float (F64.lit 0.05)))
  = F64.to_name 0%float.
Proof. reflexivity. Qed.

(** ** The order of numbers *)

Module F64Order.
Import PrimFloat F64.

Lemma cmp_Lt e1 m1 e2 m2 :
  cmp e1 m1 e2 m2 = Lt ↔ (e1 < e2 ∨ e1 = e2 ∧ Zpos m1 < Zpos m2)%Z.
Proof.
  unfold cmp. change (Pos.compare_cont Eq m1 m2) with (Pos.compare m1 m2).
  destruct (Z.compare_spec e1 e2); destruct (Pos.compare_spec m1 m2);
    split; intros; try discriminate; try reflexivity; lia.
Qed.

Lemma cmp_Gt e1 m1 e2 m2 :
  cmp e1 m1 e2 m2 = Gt ↔ (e2 < e1 ∨ e1 = e2 ∧ Zpos m2 < Zpos m1)%Z.
Proof.
  unfold cmp. change (Pos.compare_cont Eq m1 m2) with (Pos.compare m1 m2).
  destruct (Z.compare_spec e1 e2); destruct (Pos.compare_spec m1 m2);
    split; intros; try discriminate; try reflexivity; lia.
Qed.

Lemma cmp_opp_Lt e1 m1 e2 m2 :
  match Z.compare e1 e2 with
  | Lt => Gt
  | Gt => Lt
  | Eq => CompOpp (Pos.compare_cont Eq m1 m2)
  end = Lt ↔ cmp e1 m1 e2 m2 = Gt.
Proof.
  unfold cmp. destruct (Z.compare e1 e2); [| split; discriminate | tauto].
  destruct (Pos.compare_cont Eq m1 m2); simpl; split; congruence.
Qed.

(** [SFltb] on two finite floats. *)
Lemma SFltb_finite s1 m1 e1 s2 m2 e2 :
  SFltb (S754_finite s1 m1 e1) (S754_finite s2 m2 e2) = true ↔
  match s1, s2 with
  | true, false => True
  | false, true => False
  | false, false => cmp e1 m1 e2 m2 = Lt
  | true, true => cmp e1 m1 e2 m2 = Gt
  end.
Proof.
  unfold SFltb, SFcompare. destruct s1, s2.
  - rewrite <- cmp_opp_Lt.
    destruct (match (e1 ?= e2)%Z with Lt => Gt | Gt => Lt
              | Eq => CompOpp (Pos.compare_cont Eq m1 m2) end);
      split; congruence.
  - tauto.
  - split; [discriminate | tauto].
  - fold (cmp e1 m1 e2 m2). destruct (cmp e1 m1 e2 m2); split; congruence.
Qed.

Lemma SFltb_irrefl a : SFltb a a = false.
Proof.
  destruct a as [s | s | | s m e]; try (destruct s; reflexivity); try reflexivity.
  apply not_true_is_false. rewrite SFltb_finite.
  destruct s; [rewrite cmp_Gt | rewrite cmp_Lt]; lia.
Qed.

Lemma SFltb_trans a b c :
  SFltb a b = true → SFltb b c = true → SFltb a c = true.
Proof.
  destruct a as [sa | sa | | sa ma ea], b as [sb | sb | | sb mb eb],
    c as [sc | sc | | sc mc ec];
    try (destruct sa; simpl; discriminate);
    try (destruct sb; simpl; discriminate);
    try (destruct sa, sb; simpl; discriminate);
    try (destruct sb, sc; simpl; discriminate);
    try (destruct sa, sb, sc; simpl; (discriminate || reflexivity));
    try (simpl; discriminate).
  rewrite !SFltb_finite.
  destruct sa, sb, sc; try tauto; rewrite ?cmp_Lt, ?cmp_Gt; lia.
Qed.

(** Swapping the arguments of a comparison reverses its result. *)
Lemma SFcompare_swap a b :
  SFcompare b a = CompOpp <$> SFcompare a b.
Proof.
  destruct a as [sa | sa | | sa ma ea], b as [sb | sb | | sb mb eb];
    try reflexivity; try (destruct sa; reflexivity);
    try (destruct sb; reflexivity); try (destruct sa, sb; reflexivity).
  simpl. change (Pos.compare_cont Eq) with Pos.compare.
  rewrite (Z.compare_antisym ea eb), (Pos.compare_antisym ma mb).
  destruct sa, sb; try reflexivity;
    by destruct (Z.compare ea eb), (Pos.compare ma mb).
Qed.

(** "Below" is "at most". *)
Lemma ltb_leb (a b : float) : (a <? b)%float = true → (a <=? b)%float = true.
Proof.
  rewrite ltb_spec, leb_spec. unfold SFltb, SFleb.
  by destruct (SFcompare (Prim2SF a) (Prim2SF b)) as [[| |] |].
Qed.

(** Among numbers that are not NaN, "not below" is "at least". *)
Lemma not_ltb_leb (a b : float) :
  is_nan a = false → is_nan b = false →
  (a <? b)%float = false → (b <=? a)%float = true.
Proof.
  unfold is_nan. rewrite !FloatAxioms.eqb_spec, ltb_spec, leb_spec.
  unfold SFeqb, SFltb, SFleb. rewrite (SFcompare_swap (Prim2SF a) (Prim2SF b)).
  destruct (Prim2SF a) as [sa | sa | | sa ma ea] eqn:Ea; try done;
    destruct (Prim2SF b) as [sb | sb | | sb mb eb] eqn:Eb; try done;
    intros _ _; destruct (SFcompare _ _) as [[| |] |] eqn:Ec; try done;
    simpl in Ec; try destruct sa; try destruct sb; done.
Qed.
End F64Order.

#[export] Instance binary64_order : JsOrder binary64.
Proof.
  split; simpl; intros.
  - rewrite ltb_spec. apply F64Order.SFltb_irrefl.
  - rewrite ltb_spec in *. eauto using F64Order.SFltb_trans.
Qed.

(** ** The point store and the grid *)

Section Store.
Context {N : JsNum}.
Implicit Types (st : Scatter N) (p : Point N) (pts rest : list (Point N)).

(** *** Facts about [dataOf] and [lastOcc] *)

Lemma dataOf_app pts rest : dataOf (pts ++ rest) = dataOf pts ++ dataOf rest.
Proof. unfold dataOf. apply bind_app. Qed.

Lemma length_dataOf pts : length (dataOf pts) = (length pts * 2)%nat.
Proof. induction pts as [| p pts IH]; simpl; [done | by rewrite IH]. Qed.

Lemma lastOcc_lt k pts j : lastOcc k pts = Some j → (j < length pts)%nat.
Proof.
  revert j. induction pts as [| p pts IH]; simpl; intros j; [done |].
  destruct (lastOcc k pts) as [j' |].
  - intros [= <-]. specialize (IH j' eq_refl). lia.
  - case_decide; [intros [= <-]; lia | done].
Qed.

Lemma lastOcc_app k pts rest :
  lastOcc k (pts ++ rest) =
  match lastOcc k rest with
  | Some j => Some (length pts + j)%nat
  | None => lastOcc k pts
  end.
Proof.
  induction pts as [| p pts IH]; simpl.
  - by destruct (lastOcc k rest).
  - rewrite IH. by destruct (lastOcc k rest).
Qed.

(** [lastOcc] finds a point with the id, and none comes after it. *)
Lemma lastOcc_Some k pts j :
  lastOcc k pts = Some j ↔
  (∃ p, pts !! j = Some p ∧ id p = k)
  ∧ ∀ j' q, (j < j')%nat → pts !! j' = Some q → id q ≠ k.
Proof.
  revert j. induction pts as [| p pts IH]; intros j; simpl.
  - split; [done | by intros [(? & ? & _) _]].
  - destruct (lastOcc k pts) as [j0 |] eqn:E.
    + split.
      * intros [= <-]. destruct (proj1 (IH j0) eq_refl) as [Hp Hlast]. split; [done |].
        intros [| j'] q ?; [lia |]. simpl. apply Hlast. lia.
      * intros [(q & Hq & Hid) Hlast]. destruct j as [| j].
        -- destruct (proj1 (IH j0) eq_refl) as [(q0 & Hq0 & Hid0) _].
           exfalso. apply (Hlast (S j0) q0); [lia | done | done].
        -- enough (Some j0 = Some j) by congruence.
           apply IH. split; [by exists q |].
           intros j' q' ? Hq'. apply (Hlast (S j') q'); [lia | done].
    + assert (Hnone : ∀ j' q, pts !! j' = Some q → id q ≠ k).
      { intros j' q Hq Hid.
        assert (lastOcc k pts = Some j') as HH; [| congruence].
        clear IH. revert j' Hq E. induction pts as [| p' pts IH']; intros j' Hq E; [done |].
        simpl in E. destruct (lastOcc k pts) eqn:E'; [done |].
        case_decide; [done |]. destruct j' as [| j']; simpl in Hq.
        - congruence.
        - by specialize (IH' j' Hq eq_refl). }
      case_decide as Hd.
      * split.
        -- intros [= <-]. split; [by exists p |].
           intros [| j'] q ?; [lia |]. simpl. apply Hnone.
        -- intros [(q & Hq & Hid) _]. destruct j as [| j]; [done |].
           simpl in Hq. by destruct (Hnone j q Hq).
      * split; [done |]. intros [(q & Hq & Hid) _]. destruct j as [| j]; simpl in Hq.
        -- congruence.
        -- by destruct (Hnone j q Hq).
Qed.

Lemma lastOcc_None k pts :
  lastOcc k pts = None ↔ ∀ j q, pts !! j = Some q → id q ≠ k.
Proof.
  split.
  - intros E j q Hq Hid.
    assert (∃ j0, lastOcc k pts = Some j0) as [j0 ?]; [| congruence].
    clear E. revert j Hq. induction pts as [| p pts IH]; intros j Hq; [done |].
    simpl. destruct (lastOcc k pts) as [j1 |] eqn:E1; [eauto |].
    destruct j as [| j]; simpl in Hq.
    + injection Hq as ->. rewrite decide_True by done. eauto.
    + destruct (IH j Hq) as [? ?]. done.
  - intros Hnone. destruct (lastOcc k pts) as [j |] eqn:E; [| done].
    apply lastOcc_Some in E as [(p & Hp & Hid) _]. by destruct (Hnone j p Hp).
Qed.

(** *** The loops *)

Lemma setPointsLoop_appendPointsLoop i rest d m :
  setPointsLoop i rest d m = appendPointsLoop 0 i rest d m.
Proof. revert i d m. induction rest as [| p rest IH]; intros; simpl; [done | apply IH]. Qed.

(** The loop fills the slots after the first [base + i] points. *)
Lemma appendPointsLoop_data base i rest pre suf m :
  length pre = ((base + i) * 2)%nat → length suf = (length rest * 2)%nat →
  (appendPointsLoop base i rest (pre ++ suf) m).1 = pre ++ dataOf rest.
Proof.
  revert i pre suf m. induction rest as [| p rest IH]; intros i pre suf m Hpre Hsuf; simpl.
  - destruct suf; [done | simpl in Hsuf; lia].
  - destruct suf as [| a [| b suf]]; simpl in Hsuf; [lia | lia |].
    rewrite <- Hpre, insert_app_r. simpl.
    rewrite insert_app_r. simpl.
    rewrite (cons_middle (fround (x p))), (cons_middle (fround (y p)) _ suf).
    rewrite !app_assoc. rewrite IH.
    + by rewrite <- !app_assoc.
    + rewrite !length_app. simpl. lia.
    + lia.
Qed.

(** The loop maps an id to its last index in [rest], and leaves the ids
    that [rest] does not have. *)
Lemma appendPointsLoop_map base i rest d m k :
  (appendPointsLoop base i rest d m).2 !! k =
  match lastOcc k rest with
  | Some j => Some (base + i + j)%nat
  | None => m !! k
  end.
Proof.
  revert i d m. induction rest as [| p rest IH]; intros i d m; simpl; [done |].
  rewrite IH. destruct (lastOcc k rest) as [j |].
  - f_equal. lia.
  - case_decide as Hd.
    + subst k. rewrite lookup_insert_eq. f_equal. lia.
    + by rewrite lookup_insert_ne.
Qed.

Lemma gridPush_inCell k i g key j :
  inCell (gridPush k i g) key j ↔ inCell g key j ∨ (key = k ∧ j = i).
Proof.
  unfold gridPush, inCell. destruct (g !! k) as [arr0 |] eqn:E.
  - destruct (decide (key = k)) as [-> | Hne].
    + rewrite lookup_insert_eq. split.
      * intros (arr & [= <-] & Hin). apply elem_of_app in Hin as [Hin | Hin].
        -- left. eauto.
        -- right. by apply list_elem_of_singleton in Hin.
      * intros [(arr & Harr & Hin) | [_ ->]]; eexists; (split; [done |]).
        -- apply elem_of_app. left. congruence.
        -- apply elem_of_app. right. by apply list_elem_of_singleton.
    + rewrite lookup_insert_ne by done. naive_solver.
  - destruct (decide (key = k)) as [-> | Hne].
    + rewrite lookup_insert_eq, E. split.
      * intros (arr & [= <-] & Hin). right. by apply list_elem_of_singleton in Hin.
      * intros [(arr & Harr & Hin) | [_ ->]]; [done |].
        eexists. split; [done |]. by apply list_elem_of_singleton.
    + rewrite lookup_insert_ne by done. naive_solver.
Qed.

(** The grid loop lists the index of every point it passes under the key
    of that point's cell, and nothing else. *)
Lemma gridLoop_inCell i rest g key j :
  inCell (gridLoop i rest g) key j ↔
  inCell g key j ∨ ∃ p, (i ≤ j)%nat ∧ rest !! (j - i)%nat = Some p ∧ cellKey p = key.
Proof.
  revert i g. induction rest as [| p rest IH]; intros i g; simpl.
  - split; [by left | by intros [? | (? & _ & ? & _)]].
  - rewrite IH, gridPush_inCell. split.
    + intros [[? | [-> ->]] | (q & Hle & Hq & Hkey)].
      * by left.
      * right. exists p. by rewrite Nat.sub_diag.
      * right. exists q. split; [lia |].
        replace (j - i)%nat with (S (j - S i)) by lia. done.
    + intros [? | (q & Hle & Hq & Hkey)]; [by left; left |].
      destruct (decide (j = i)) as [-> | Hne].
      * rewrite Nat.sub_diag in Hq. simpl in Hq. injection Hq as ->. left. by right.
      * right. exists q. split; [lia |].
        replace (j - i)%nat with (S (j - S i)) in Hq by lia. done.
Qed.

(** *** The calls keep the invariant *)

Lemma thePoints_init h own w ht : thePoints (init h own w ht) = [].
Proof. unfold thePoints, array. simpl. by rewrite lookup_insert_eq. Qed.

Lemma init_inv h own w ht : StoreInv (init h own w ht).
Proof.
  split; rewrite thePoints_init.
  - done.
  - intros k. apply lookup_empty.
  - intros key i. unfold inCell. simpl. split.
    + intros (arr & Harr & _). by rewrite lookup_empty in Harr.
    + by intros (p & Hp & _).
Qed.

(** What [setPoints] leaves in each field. *)
Lemma setPoints_state (r : nat) st :
  (setPoints r st).1 =
  {| arrays := arrays st; points := r;
     data := (setPointsLoop 0 (array st r)
                (newFloat32Array (length (array st r) * 2)) ∅).1;
     needsUpload := false;
     idToIndex := (setPointsLoop 0 (array st r)
                     (newFloat32Array (length (array st r) * 2)) ∅).2;
     scale := scale st; tx := tx st; ty := ty st; dragging := dragging st;
     lastX := lastX st; lastY := lastY st; selectedIndex := selectedIndex st;
     grid := gridLoop 0 (array st r) ∅;
     canvasWidth := canvasWidth st; canvasHeight := canvasHeight st |}.
Proof.
  unfold setPoints. simpl.
  change (array (set_idToIndex _ _) r) with (array st r).
  by destruct (setPointsLoop _ _ _ _) as [d m].
Qed.

Lemma thePoints_setPoints (r : nat) st : thePoints (setPoints r st).1 = array st r.
Proof. by rewrite setPoints_state. Qed.

Lemma setPoints_inv (r : nat) st : StoreInv (setPoints r st).1.
Proof.
  split; rewrite thePoints_setPoints, setPoints_state; simpl;
    rewrite ?setPointsLoop_appendPointsLoop.
  - pose proof (appendPointsLoop_data 0 0 (array st r) []
                  (newFloat32Array (length (array st r) * 2)) ∅ eq_refl) as H.
    cbn [app] in H. rewrite H; [done |]. apply length_replicate.
  - intros k. rewrite appendPointsLoop_map.
    destruct (lastOcc k (array st r)); [done | apply lookup_empty].
  - intros key i. rewrite gridLoop_inCell. rewrite Nat.sub_0_r. split.
    + intros [(arr & Harr & _) | (p & _ & Hp & Hkey)]; [| by exists p].
      by rewrite lookup_empty in Harr.
    + intros (p & Hp & Hkey). right. exists p. split; [lia | done].
Qed.

(** [newData.set(this.data)] fits: the old buffer is a prefix of the new. *)
Lemma typedSet_grow old ext :
  typedSet (dataOf old) (newFloat32Array (length (old ++ ext) * 2)) =
  Ok (dataOf old ++ newFloat32Array (length ext * 2)).
Proof.
  unfold typedSet, newFloat32Array. rewrite length_dataOf, length_replicate, length_app.
  rewrite (proj2 (Nat.leb_le _ _)) by lia.
  rewrite drop_replicate. do 3 f_equal. lia.
Qed.

(** The state that the second half of [appendPoints] builds, from the
    loop's start index [base] on. *)
Lemma appendPoints_inv (r : nat) st :
  StoreInv st →
  ∃ st' cmds, appendPoints r true st = Ok (st', cmds) ∧ StoreInv st'.
Proof.
  intros [Hd Hm Hg]. unfold appendPoints.
  destruct (length (array st r) =? 0)%nat eqn:E0; [by eauto using Build_StoreInv |].
  cbn [negb]. apply Nat.eqb_neq in E0.
  set (old := thePoints st) in *. set (ext := array st r) in *.
  set (st1 := set_arrays _ st).
  assert (HP1 : thePoints st1 = old ++ ext).
  { unfold thePoints, array, st1. simpl. by rewrite lookup_insert_eq. }
  change (data st1) with (data st). change (idToIndex st1) with (idToIndex st).
  rewrite HP1, Hd, typedSet_grow. cbn [mbind outcome_bind].
  set (pts := array st1 r). set (base := (length (old ++ ext) - length pts)%nat).
  (* [pts] is the array that was passed, read after the push: [ext] itself,
     or the whole of [this.points] when the viewer's own array was passed. *)
  assert (old ++ ext = take base old ++ pts
                   ∧ (base ≤ length old)%nat
                   ∧ ∀ k, lastOcc k pts = None → lastOcc k (take base old) = lastOcc k old)
    as (Hall & Hbase & Hids).
  { destruct (decide (r = points st)) as [-> | Hne].
    - assert (pts = old ++ ext) as Hpts by done.
      assert (base = 0%nat) as -> by (unfold base; rewrite Hpts; lia).
      rewrite take_0. split; [done |]. split; [lia |].
      intros k. rewrite Hpts, lastOcc_app. simpl.
      destruct (lastOcc k ext); [done |]. by intros ->.
    - assert (pts = ext) as Hpts.
      { unfold pts, array, st1. simpl. by rewrite lookup_insert_ne. }
      assert (base = length old) as -> by (unfold base; rewrite Hpts, length_app; lia).
      rewrite firstn_all. by rewrite Hpts. }
  assert (Hlen : (length pts = length old - base + length ext)%nat).
  { apply (f_equal length) in Hall. rewrite !length_app, length_take in Hall. lia. }
  destruct (appendPointsLoop base 0 pts _ (idToIndex st)) as [d m] eqn:Eloop.
  eexists _, _. split; [done |].
  match goal with
  | |- StoreInv ?s => assert (HP' : thePoints s = old ++ ext) by exact HP1
  end.
  split; rewrite HP'; simpl.
  - apply (f_equal fst) in Eloop. simpl in Eloop. subst d.
    rewrite <- (take_drop base old) at 1. rewrite dataOf_app, <- app_assoc.
    rewrite appendPointsLoop_data.
    + by rewrite <- dataOf_app, <- Hall.
    + rewrite length_dataOf, length_take. lia.
    + rewrite length_app, length_dataOf, length_drop. unfold newFloat32Array.
      rewrite length_replicate. lia.
  - intros k. apply (f_equal snd) in Eloop. simpl in Eloop. subst m.
    rewrite appendPointsLoop_map, Hall, lastOcc_app, length_take.
    destruct (lastOcc k pts) as [j |] eqn:Ej.
    + f_equal. lia.
    + by rewrite Hm, Hids.
  - intros key i. rewrite gridLoop_inCell, Hg.
    change (thePoints (set_data d (set_idToIndex m st1))) with (thePoints st1).
    rewrite HP1. split.
    + intros [(p & Hp & Hkey) | (p & Hle & Hp & Hkey)]; exists p; (split; [| done]).
      * by apply lookup_app_l_Some.
      * rewrite lookup_drop in Hp. by replace (base + (i - base))%nat with i in Hp by lia.
    + intros (p & Hp & Hkey). destruct (decide (base ≤ i)%nat) as [Hle | Hlt].
      * right. exists p. split; [done |]. split; [| done].
        rewrite lookup_drop. by replace (base + (i - base))%nat with i by lia.
      * left. exists p. split; [| done].
        rewrite lookup_app_l in Hp; [done | lia].
Qed.

(** A refused [push] throws; an empty batch is not pushed at all. *)
Lemma appendPoints_refused (r : nat) st :
  appendPoints r false st
  = if (length (array st r) =? 0)%nat then Ok (st, []) else Throw RangeError.
Proof. unfold appendPoints. by destruct (length (array st r) =? 0)%nat. Qed.

(** What a call returns, it returns when the engine takes the [push]. *)
Lemma appendPoints_Ok (r : nat) (fits : bool) st st' (cmds : list (GlCmd N)) :
  appendPoints r fits st = Ok (st', cmds) →
  appendPoints r true st = Ok (st', cmds).
Proof.
  destruct fits; [done |]. rewrite appendPoints_refused. unfold appendPoints.
  by destruct (length (array st r) =? 0)%nat.
Qed.

(** The invariant reads five fields only. *)
Lemma StoreInv_same_store st st' :
  arrays st' = arrays st → points st' = points st → data st' = data st →
  idToIndex st' = idToIndex st → grid st' = grid st →
  StoreInv st → StoreInv st'.
Proof.
  intros Ha Hp Hd Hm Hg [Hdata Hmap Hgrid].
  assert (HP : thePoints st' = thePoints st).
  { unfold thePoints, array. by rewrite Ha, Hp. }
  split; rewrite HP.
  - by rewrite Hd.
  - intros k. by rewrite Hm.
  - intros key i. by rewrite Hg.
Qed.

(** Every event keeps the invariant. *)
Lemma react_inv (ev : Event N) st st' :
  StoreInv st → react ev st = Ok st' → StoreInv st'.
Proof.
  intros Hinv. destruct ev as [r | r fits | oid | smooth now | e | | e rect | e rect | tr now];
    simpl.
  - intros [= <-]. apply setPoints_inv.
  - destruct (appendPoints r fits st) as [[st1 cmds] | err] eqn:Happ; [| done].
    apply appendPoints_Ok in Happ.
    destruct (appendPoints_inv r st Hinv) as (st2 & cmds2 & Happ2 & Hinv2).
    rewrite Happ in Happ2. injection Happ2 as <- <-. by intros [= <-].
  - intros [= <-]. by destruct oid; apply (StoreInv_same_store st).
  - unfold centerOnSelected. destruct (selectedIndex st <? 0)%Z; [by intros [= <-] |].
    destruct (thePoints st !! Z.to_nat (selectedIndex st)); [| done].
    destruct smooth; simpl; intros [= <-]; [done |].
    by apply (StoreInv_same_store st).
  - intros [= <-]. unfold onMouseDown. destruct (button e =? 2)%Z; [| done].
    by apply (StoreInv_same_store st).
  - intros [= <-]. by apply (StoreInv_same_store st).
  - intros [= <-]. unfold onMouseMove. destruct (dragging st); [| done].
    by apply (StoreInv_same_store st).
  - intros [= <-]. unfold onWheel. destruct (wheelCursor e rect).
    by apply (StoreInv_same_store st).
  - intros [= <-]. by apply (StoreInv_same_store st).
Qed.

(** The invariant holds in every state a viewer reaches. *)
Lemma run_inv (evs : list (Event N)) st st' :
  StoreInv st → run evs st = Ok st' → StoreInv st'.
Proof.
  revert st. induction evs as [| ev evs IH]; intros st Hinv; simpl.
  - by intros [= <-].
  - destruct (react ev st) as [st1 | err] eqn:Hev; [| done]. simpl.
    apply IH. by eapply react_inv.
Qed.

(** A call keeps the invariant, whether it returns or throws. *)
Lemma call_inv (c : StoreCall) st :
  StoreInv st → StoreInv (settle (call c st) st).
Proof.
  intros Hinv. destruct c as [r | r fits]; simpl.
  - apply setPoints_inv.
  - destruct (appendPoints r fits st) as [[st1 cmds] | err] eqn:Happ; [| done].
    apply appendPoints_Ok in Happ.
    destruct (appendPoints_inv r st Hinv) as (st2 & cmds2 & Happ2 & Hinv2).
    rewrite Happ in Happ2. by injection Happ2 as <- <-.
Qed.

(** A call whose [push] the engine takes returns. *)
Lemma call_fits (c : StoreCall) st :
  StoreInv st → callFits c = true → ∃ st', call c st = Ok st'.
Proof.
  intros Hinv Hfits. destruct c as [r | r fits]; simpl in *; [by eauto |].
  subst fits. destruct (appendPoints_inv r st Hinv) as (st' & cmds & -> & _).
  by eauto.
Qed.

(** The invariant holds after any sequence of [setPoints] and
    [appendPoints] calls, the calls that throw among them. *)
Lemma callsThrough_inv (cs : list StoreCall) st :
  StoreInv st → StoreInv (callsThrough cs st).
Proof.
  revert st. induction cs as [| c cs IH]; intros st Hinv; [done |].
  apply IH. by apply call_inv.
Qed.

(** A sequence that runs to its end leaves the state [callsThrough] gives. *)
Lemma calls_callsThrough (cs : list StoreCall) st st' :
  calls cs st = Ok st' → callsThrough cs st = st'.
Proof.
  revert st. induction cs as [| c cs IH]; intros st; simpl.
  - by intros [= <-].
  - destruct (call c st) as [st1 | err] eqn:Hc; [| done]. simpl. apply IH.
Qed.

(** A sequence of calls that the engine takes runs to its end. *)
Lemma calls_inv (cs : list StoreCall) st :
  StoreInv st → forallb callFits cs = true →
  ∃ st', calls cs st = Ok st' ∧ StoreInv st'.
Proof.
  revert st. induction cs as [| c cs IH]; intros st Hinv Hfits; simpl; [by eauto |].
  simpl in Hfits. apply andb_true_iff in Hfits as [Hc Hcs].
  destruct (call_fits c st Hinv Hc) as (st1 & Hst1).
  pose proof (call_inv c st Hinv) as Hinv1. rewrite Hst1 in *. simpl in *.
  by apply IH.
Qed.

Lemma calls_fits_through (cs : list StoreCall) st :
  forallb callFits cs = true → StoreInv st →
  calls cs st = Ok (callsThrough cs st).
Proof.
  intros Hfits Hinv. destruct (calls_inv cs st Hinv Hfits) as (st' & Hrun & _).
  by rewrite (calls_callsThrough _ _ _ Hrun).
Qed.

End Store.

(** ** Frames and selection *)

Section Frames.
Context {N : JsNum}.
Implicit Types (st : Scatter N).

(** The frame has the draw of all points, and the draw of the selected one
    when the guard holds. *)
Lemma drawCalls_draw st :
  drawCalls (draw st).2 =
  (0%Z, Z.of_nat (length (thePoints st)))
    :: (if overlayGuard st then [(selectedIndex st, 1%Z)] else []).
Proof.
  unfold draw. simpl. destruct (needsUpload st), (overlayGuard st); reflexivity.
Qed.

Lemma overlayGuard_spec st :
  overlayGuard st = true ↔
  (0 ≤ selectedIndex st < Z.of_nat (length (thePoints st)))%Z.
Proof. unfold overlayGuard. rewrite andb_true_iff, Z.leb_le, Z.ltb_lt. tauto. Qed.

Lemma setPoints_selectedIndex (r : nat) st :
  selectedIndex (setPoints r st).1 = selectedIndex st.
Proof. by rewrite setPoints_state. Qed.

(** The frame that [setPoints] draws. *)
Lemma setPoints_frame (r : nat) st :
  (setPoints r st).2 = (draw (set_needsUpload true (setPoints r st).1)).2.
Proof.
  rewrite setPoints_state. unfold setPoints. simpl.
  change (array (set_idToIndex _ _) r) with (array st r).
  by destruct (setPointsLoop _ _ _ _) as [d m].
Qed.

(** The three fields of the view, the selection and the drag state. *)
Lemma setPoints_view (r : nat) st :
  let st' := (setPoints r st).1 in
  scale st' = scale st ∧ tx st' = tx st ∧ ty st' = ty st
  ∧ selectedIndex st' = selectedIndex st ∧ dragging st' = dragging st
  ∧ lastX st' = lastX st ∧ lastY st' = lastY st ∧ arrays st' = arrays st.
Proof. intros st'. unfold st'. rewrite setPoints_state. by repeat split. Qed.

(** What [appendPoints] returns, field by field, when the batch is not
    empty. *)
Lemma appendPoints_fields (r : nat) (fits : bool) st st' (cmds : list (GlCmd N)) :
  appendPoints r fits st = Ok (st', cmds) →
  thePoints st' = thePoints st ++ array st r
  ∧ points st' = points st
  ∧ scale st' = scale st ∧ tx st' = tx st ∧ ty st' = ty st
  ∧ selectedIndex st' = selectedIndex st ∧ dragging st' = dragging st
  ∧ lastX st' = lastX st ∧ lastY st' = lastY st
  ∧ (array st r = [] → st' = st ∧ cmds = [])
  ∧ (array st r ≠ [] → needsUpload st' = false).
Proof.
  intros Hrun. apply appendPoints_Ok in Hrun. revert Hrun.
  unfold appendPoints. destruct (array st r) as [| p0 ext] eqn:Hext.
  - simpl. intros [= <- <-]. rewrite app_nil_r. by repeat split.
  - rewrite <- Hext. replace (length (array st r) =? 0)%nat with false
      by (by rewrite Hext).
    cbn [negb]. set (st1 := set_arrays _ st).
    assert (HP1 : thePoints st1 = thePoints st ++ array st r).
    { unfold thePoints, array, st1. simpl. by rewrite lookup_insert_eq. }
    destruct (typedSet _ _) as [nd | err]; [| done]. cbn [mbind outcome_bind].
    destruct (appendPointsLoop _ _ _ _ _) as [d m]. intros [= <- <-].
    split; [exact HP1 |]. do 8 (split; [done |]).
    split; [intros Hnil; by rewrite Hnil in Hext | done].
Qed.

(** The frame of a non-empty [appendPoints] is the frame of the state it
    leaves, drawn while the buffer was dirty. *)
Lemma appendPoints_frame (r : nat) (fits : bool) st st' (cmds : list (GlCmd N)) :
  appendPoints r fits st = Ok (st', cmds) → array st r ≠ [] →
  cmds = (draw (set_needsUpload true st')).2.
Proof.
  intros Hrun. apply appendPoints_Ok in Hrun. revert Hrun.
  unfold appendPoints. destruct (array st r) as [| p0 ext] eqn:Hext; [done |].
  rewrite <- Hext. replace (length (array st r) =? 0)%nat with false
    by (by rewrite Hext).
  cbn [negb]. destruct (typedSet _ _) as [nd | err]; [| done]. cbn [mbind outcome_bind].
  destruct (appendPointsLoop _ _ _ _ _) as [d m]. by intros [= <- <-] _.
Qed.

(** What a successful [appendPoints] leaves in the store. *)
Lemma appendPoints_store (r : nat) st :
  StoreInv st →
  ∃ st' cmds, appendPoints r true st = Ok (st', cmds)
    ∧ StoreInv st'
    ∧ thePoints st' = thePoints st ++ array st r
    ∧ data st' = data st ++ dataOf (array st r)
    ∧ (∀ k, idToIndex st' !! k =
            match lastOcc k (array st r) with
            | Some j => Some (length (thePoints st) + j)%nat
            | None => idToIndex st !! k
            end)
    ∧ (∀ key i, inCell (grid st) key i → inCell (grid st') key i).
Proof.
  intros Hinv. destruct (appendPoints_inv r st Hinv) as (st' & cmds & Hrun & Hinv').
  exists st', cmds. split; [done |]. split; [done |].
  destruct (appendPoints_fields r true st st' cmds Hrun) as (HP & _).
  split; [done |]. split.
  { by rewrite (inv_data st' Hinv'), HP, dataOf_app, <- (inv_data st Hinv). }
  split.
  { intros k. rewrite (inv_map st' Hinv'), HP, lastOcc_app.
    by rewrite (inv_map st Hinv). }
  intros key i Hin. apply (inv_grid st' Hinv').
  apply (inv_grid st Hinv) in Hin as (p & Hp & Hkey). exists p.
  split; [| done]. rewrite HP. by apply lookup_app_l_Some.
Qed.

End Frames.

(** ** The claims about the store, the selection and the frame *)

(** C1. After any sequence of [setPoints] and [appendPoints] calls, an
    index is listed under a key of the grid exactly when it is the index of
    a current point and the key is (floor(x / gridSize), floor(y /
    gridSize)) for that point: every current index is under the key of its
    own cell and under no other.  This holds also past the calls that throw
    (an [appendPoints] whose [push] the engine refuses leaves the viewer as
    it was); a sequence without such a call runs to its end. *)
Theorem grid_index_consistency {N : JsNum}
    (h : gmap nat (list (Point N))) (own : nat) (w ht : num) (cs : list StoreCall) :
  let st := callsThrough cs (init h own w ht) in
  (∀ (i : nat) (key : GridKey),
      inCell (grid st) key i ↔
      ∃ p, thePoints st !! i = Some p
           ∧ key = (to_name (nfloor (ndiv (x p) gridSize)),
                    to_name (nfloor (ndiv (y p) gridSize))))
  ∧ (∀ st', calls cs (init h own w ht) = Ok st' → st' = st)
  ∧ (forallb callFits cs = true → calls cs (init h own w ht) = Ok st).
Proof.
  intros st.
  pose proof (callsThrough_inv cs (init h own w ht) (init_inv h own w ht)) as Hinv.
  fold st in Hinv. split; [| split].
  - intros i key. rewrite (inv_grid st Hinv).
    split; intros (p & Hp & Hkey); exists p; (split; [done |]); symmetry; exact Hkey.
  - intros st' Hrun. symmetry. by apply calls_callsThrough.
  - intros Hfits. by apply calls_fits_through, init_inv.
Qed.

(** When the host passes the viewer's own array to [appendPoints], the
    array is doubled and every index is pushed again: the old indices are
    then listed twice in their cell (which index is under which key does
    not change). *)
Example appendPoints_own_array :
  (fun st : Scatter binary64 =>
     (length (thePoints st),
      grid st !! cellKey (Scenario.pt 1 0%float 0%float),
      idToIndex st !! 1%Z))
  <$> calls [SetPoints 1%nat; AppendPoints 1%nat true] Scenario.start
  = Ok (4%nat, Some [0%nat; 0%nat; 2%nat], Some 3%nat).
Proof. vm_compute. reflexivity. Qed.

(** C5, as the code has it: [setPoints] does not touch the selection index.
    The frame it draws has the highlight exactly when the index it kept is
    below the new number of points; the index then names whichever point
    now sits there. *)
Theorem setPoints_keeps_selectedIndex {N : JsNum} (r : nat) (st : Scatter N) :
  selectedIndex (setPoints r st).1 = selectedIndex st
  ∧ thePoints (setPoints r st).1 = array st r
  ∧ drawCalls (setPoints r st).2 =
      (0%Z, Z.of_nat (length (array st r)))
        :: (if (0 <=? selectedIndex st)%Z
               && (selectedIndex st <? Z.of_nat (length (array st r)))%Z
            then [(selectedIndex st, 1%Z)] else []).
Proof.
  split; [apply setPoints_selectedIndex |]. split; [apply thePoints_setPoints |].
  rewrite setPoints_frame, drawCalls_draw.
  change (thePoints (set_needsUpload true (setPoints r st).1))
    with (thePoints (setPoints r st).1).
  unfold overlayGuard.
  change (selectedIndex (set_needsUpload true (setPoints r st).1))
    with (selectedIndex (setPoints r st).1).
  change (thePoints (set_needsUpload true (setPoints r st).1))
    with (thePoints (setPoints r st).1).
  by rewrite thePoints_setPoints, setPoints_selectedIndex.
Qed.

(** C5 fails as stated: with id 8 selected (index 1), loading two other
    points leaves the index at 1, and the frame highlights index 1, where a
    point with the id 1 now sits. *)
Lemma setPoints_selection_survives :
  selectedIndex Scenario.selected8 = 1%Z
  ∧ selectedIndex Scenario.replaced.1 = 1%Z
  ∧ id <$> thePoints Scenario.replaced.1 !! 1%nat = Some 1%Z
  ∧ drawCalls Scenario.replaced.2 = [(0%Z, 2%Z); (1%Z, 1%Z)].
Proof. vm_compute. repeat split; reflexivity. Qed.

(** The range guard is in [draw] only: with id 8 selected (index 1), after
    one point is loaded over the two, [centerOnSelected] reads
    [this.points[1]], which is undefined, and throws. *)
Example centerOnSelected_stale_index_throws :
  (fun _ => tt)
  <$> @centerOnSelected binary64 true 0%float (setPoints 3%nat Scenario.selected8).1
  = Throw TypeError.
Proof. vm_compute. reflexivity. Qed.

(** C6, as the code has it: after any sequence of [setPoints] and
    [appendPoints] calls the packed buffer holds two floats per point; every
    value of the id→index map is the index of a current point that carries
    that id; an index is the value for its point's id when no later point
    has the same id.  So the map is onto [0, count) when the ids of the
    sequence are pairwise distinct.  This holds also past the calls that
    throw; a sequence without such a call runs to its end. *)
Theorem packed_buffer_and_id_map {N : JsNum}
    (h : gmap nat (list (Point N))) (own : nat) (w ht : num) (cs : list StoreCall) :
  let st := callsThrough cs (init h own w ht) in
  length (data st) = (2 * length (thePoints st))%nat
  ∧ (∀ k i, idToIndex st !! k = Some i →
       (i < length (thePoints st))%nat
       ∧ ∃ p, thePoints st !! i = Some p ∧ id p = k)
  ∧ (∀ i p, thePoints st !! i = Some p →
       (∀ j q, (i < j)%nat → thePoints st !! j = Some q → id q ≠ id p) →
       idToIndex st !! id p = Some i)
  ∧ (NoDup (id <$> thePoints st) →
     ∀ i, (i < length (thePoints st))%nat → ∃ k, idToIndex st !! k = Some i)
  ∧ (∀ st', calls cs (init h own w ht) = Ok st' → st' = st)
  ∧ (forallb callFits cs = true → calls cs (init h own w ht) = Ok st).
Proof.
  intros st.
  pose proof (callsThrough_inv cs (init h own w ht) (init_inv h own w ht)) as Hinv.
  fold st in Hinv. destruct Hinv as [Hd Hm Hg].
  assert (Hlast : ∀ i p, thePoints st !! i = Some p →
            (∀ j q, (i < j)%nat → thePoints st !! j = Some q → id q ≠ id p) →
            idToIndex st !! id p = Some i).
  { intros i p Hp Hlater. rewrite Hm. apply lastOcc_Some. split; [by exists p | done]. }
  split; [rewrite Hd, length_dataOf; lia |].
  split.
  { intros k i H. rewrite Hm in H. split; [by apply lastOcc_lt in H |].
    by apply lastOcc_Some in H as [? _]. }
  split; [done |]. split.
  { intros Hnodup i Hi. destruct (lookup_lt_is_Some_2 _ _ Hi) as [p Hp].
    exists (id p). apply (Hlast i p Hp). intros j q Hij Hq Heq.
    assert (i = j); [| lia].
    apply (NoDup_lookup _ i j (id p) Hnodup); rewrite list_lookup_fmap.
    + by rewrite Hp.
    + rewrite Hq. simpl. by rewrite Heq. }
  split.
  - intros st' Hrun. symmetry. by apply calls_callsThrough.
  - intros Hfits. by apply calls_fits_through, init_inv.
Qed.

(** C6 fails as stated: after [setPoints] on two points that share the id 1,
    the buffer has four floats, yet index 0 is the value of no id. *)
Lemma id_map_not_onto :
  let st := (setPoints 1%nat Scenario.start).1 in
  length (data st) = 4%nat
  ∧ ∃ i, (i < length (thePoints st))%nat ∧ ∀ k, idToIndex st !! k ≠ Some i.
Proof.
  split; [reflexivity |]. exists 0%nat. split; [vm_compute; lia |].
  intros k. rewrite (inv_map _ (setPoints_inv 1%nat Scenario.start)).
  rewrite thePoints_setPoints.
  change (array Scenario.start 1) with Scenario.dupIds.
  simpl. destruct (decide (1%Z = k)); congruence.
Qed.

(** C7. After [setPoints] the points of the viewer are the points given to
    it, and after [appendPoints] they are the points that were there
    followed by the points given to it; in every state that a sequence of
    such calls leaves, and after one more call of either kind, looking an
    id up gives the index of the last of these points that carries the id.
    For the input [{id:1,x:0,y:0},{id:1,x:0.5,y:0.5}], id 1 resolves to
    index 1, the second entry; when the same two points are appended to two
    others, id 1 resolves to index 3. *)
Theorem duplicate_id_latest_wins :
  (∀ (N : JsNum) (h : gmap nat (list (Point N))) (own : nat) (w ht : num)
     (cs : list StoreCall),
     let st := callsThrough cs (init h own w ht) in
     latestWins st (thePoints st)
     ∧ (∀ r : nat,
          thePoints (setPoints r st).1 = array st r
          ∧ latestWins (setPoints r st).1 (array st r))
     ∧ (∀ r : nat, ∃ st' cmds,
          appendPoints r true st = Ok (st', cmds)
          ∧ thePoints st' = thePoints st ++ array st r
          ∧ latestWins st' (thePoints st ++ array st r)))
  ∧ (thePoints (setPoints 1%nat Scenario.start).1 = Scenario.dupIds
     ∧ idToIndex (setPoints 1%nat Scenario.start).1 !! 1%Z = Some 1%nat)
  ∧ (fun st : Scatter binary64 =>
       (id <$> thePoints st, idToIndex st !! 1%Z, idToIndex st !! 7%Z))
    <$> calls [SetPoints 2%nat; AppendPoints 1%nat true] Scenario.start
    = Ok ([7%Z; 8%Z; 1%Z; 1%Z], Some 3%nat, Some 0%nat).
Proof.
  assert (Hlatest : ∀ (N : JsNum) (st : Scatter N),
            StoreInv st → latestWins st (thePoints st)).
  { intros N st Hinv k i. rewrite (inv_map st Hinv). apply lastOcc_Some. }
  split; [| split].
  - intros N h own w ht cs st.
    pose proof (callsThrough_inv cs (init h own w ht) (init_inv h own w ht)) as Hinv.
    fold st in Hinv. split; [by apply Hlatest |]. split.
    + intros r. split; [apply thePoints_setPoints |].
      rewrite <- (thePoints_setPoints r st). apply Hlatest, setPoints_inv.
    + intros r. destruct (appendPoints_inv r st Hinv) as (st' & cmds & Hrun & Hinv').
      exists st', cmds. split; [done |].
      destruct (appendPoints_fields r true st st' cmds Hrun) as (HP & _).
      split; [done |]. rewrite <- HP. by apply Hlatest.
  - split; [by rewrite thePoints_setPoints |].
    rewrite (inv_map _ (setPoints_inv 1%nat Scenario.start)).
    by rewrite thePoints_setPoints.
  - vm_compute. reflexivity.
Qed.

(** C9. When [setSelectedId] is given null, or an id that the id→index map
    does not have, the selection index becomes -1: the frame drawn has no
    highlight, neither has any later frame of that state, and
    [centerOnSelected] returns without changing the state, drawing a frame
    or starting a transition. *)
Theorem unknown_id_selects_nothing {N : JsNum} (oid : option Z) (st : Scatter N) :
  match oid with Some k => idToIndex st !! k = None | None => True end →
  let st' := (setSelectedId oid st).1 in
  selectedIndex st' = (-1)%Z
  ∧ drawCalls (setSelectedId oid st).2 = [(0%Z, Z.of_nat (length (thePoints st)))]
  ∧ drawCalls (draw st').2 = [(0%Z, Z.of_nat (length (thePoints st)))]
  ∧ ∀ smooth now, centerOnSelected smooth now st' = Ok (st', [], None).
Proof.
  intros Hid st'.
  assert (Hst' : (setSelectedId oid st) = draw (set_selectedIndex (-1) st)).
  { unfold setSelectedId. destruct oid as [k |]; [by rewrite Hid | done]. }
  unfold st'. rewrite Hst'. split; [reflexivity |].
  split; [by rewrite drawCalls_draw |]. split; [by rewrite drawCalls_draw |].
  intros smooth now. reflexivity.
Qed.

(** A witness for C9: the points 7 and 8 are loaded and id 8 is selected,
    at index 1; then id 99, which no point has, is asked for. *)
Lemma unknown_id_selects_nothing_witness :
  let st := Scenario.selected8 in
  let st' := (setSelectedId (Some 99%Z) st).1 in
  idToIndex st !! 99%Z = None
  ∧ selectedIndex st = 1%Z
  ∧ selectedIndex st' = (-1)%Z
  ∧ drawCalls (setSelectedId (Some 99%Z) st).2
    = [(0%Z, Z.of_nat (length (thePoints st)))]
  ∧ drawCalls (draw st').2 = [(0%Z, Z.of_nat (length (thePoints st)))]
  ∧ ∀ smooth now, centerOnSelected smooth now st' = Ok (st', [], None).
Proof.
  assert (Hid : idToIndex Scenario.selected8 !! 99%Z = None)
    by (vm_compute; reflexivity).
  assert (Hsel : selectedIndex Scenario.selected8 = 1%Z)
    by (vm_compute; reflexivity).
  exact (conj Hid (conj Hsel
    (unknown_id_selects_nothing (Some 99%Z) Scenario.selected8 Hid))).
Defined.

(** C10. A frame has one draw of all points, and a second draw (the
    highlight, of one point at the selection index) exactly when
    0 <= selectedIndex < point count; every draw of a frame stays inside the
    current sequence of points. *)
Theorem overlay_guarded_by_range {N : JsNum} (st : Scatter N) :
  let n := Z.of_nat (length (thePoints st)) in
  drawCalls (draw st).2 =
    (0%Z, n) :: (if overlayGuard st then [(selectedIndex st, 1%Z)] else [])
  ∧ (overlayGuard st = true ↔ (0 ≤ selectedIndex st < n)%Z)
  ∧ (length (drawCalls (draw st).2) = 2%nat ↔ (0 ≤ selectedIndex st < n)%Z)
  ∧ ∀ first count, (first, count) ∈ drawCalls (draw st).2 →
      (0 ≤ first ∧ 0 ≤ count ∧ first + count ≤ n)%Z.
Proof.
  intros n. rewrite drawCalls_draw. fold n.
  pose proof (overlayGuard_spec st) as Hg. fold n in Hg.
  split; [done |]. split; [done |]. split.
  - rewrite <- Hg. destruct (overlayGuard st); simpl; split; (done || lia).
  - intros first count Hin. destruct (overlayGuard st) eqn:E.
    + apply proj1 in Hg. specialize (Hg eq_refl).
      apply elem_of_cons in Hin as [[= -> ->] | Hin]; [lia |].
      apply list_elem_of_singleton in Hin as [= -> ->]. lia.
    + apply list_elem_of_singleton in Hin as [= -> ->]. lia.
Qed.

(** ** The view transform and the camera, in binary64 *)

(** [worldToNdc] followed by [ndcToWorld] rounds four times.  After a drag
    of 120 pixels (scale 1, translation 0.3) the world x = 0.1 comes back
    as 0.10000000000000003; after a drag of 400 pixels (translation 1) the
    world x = 2^-60 comes back as 0. *)
Example ndc_roundtrip_rounds :
  let st := Scenario.panned in
  let wx := F64.lit 0.1 in
  let st1 := (onMouseMove (@Build_MouseEvent binary64 2%Z (F64.of_Z 400) 0%float)
                Scenario.rect
                (onMouseDown (@Build_MouseEvent binary64 2%Z 0%float 0%float)
                   Scenario.start)).1 in
  let small := PrimFloat.div 1%float (F64.of_Z (2 ^ 60)) in
  (PrimFloat.ltb 0 (scale st) = true
   ∧ tx st = 0x1.3333333333333p-2%float
   ∧ wx = 0x1.999999999999ap-4%float
   ∧ (ndcToWorld st (worldToNdc st wx 0%float).1 (worldToNdc st wx 0%float).2).1
     = 0x1.999999999999cp-4%float
   ∧ PrimFloat.eqb (ndcToWorld st (worldToNdc st wx 0%float).1
                      (worldToNdc st wx 0%float).2).1 wx = false)
  ∧ (scale st1 = 1%float ∧ tx st1 = 1%float
     ∧ PrimFloat.ltb 0 small = true
     ∧ (ndcToWorld st1 (worldToNdc st1 small 0%float).1
          (worldToNdc st1 small 0%float).2).1 = 0%float).
Proof. vm_compute. repeat split; reflexivity. Qed.

(** Where a product leaves the range of binary64 nothing comes back: at
    the largest finite scale, 2^1024 - 2^971, the world x = 2 goes to
    +Infinity and comes back as +Infinity, and one notch of zoom takes the
    scale to +Infinity and the world x under the cursor from a number to
    NaN. *)
Example view_transform_overflows :
  let st := set_view (F64.of_Z (2 ^ 1024 - 2 ^ 971)) 0%float 0%float
               Scenario.start in
  let st' := (onWheel Scenario.notch Scenario.rect st).1 in
  let c := wheelCursor Scenario.notch Scenario.rect in
  PrimFloat.ltb 0 (scale st) = true
  ∧ PrimFloat.is_infinity (scale st) = false
  ∧ (worldToNdc st 2%float 0%float).1 = PrimFloat.infinity
  ∧ (ndcToWorld st (worldToNdc st 2%float 0%float).1
       (worldToNdc st 2%float 0%float).2).1 = PrimFloat.infinity
  ∧ scale st' = PrimFloat.infinity
  ∧ PrimFloat.is_nan (ndcToWorld st c.1 c.2).1 = false
  ∧ PrimFloat.is_nan (ndcToWorld st' c.1 c.2).1 = true.
Proof. vm_compute. repeat split; reflexivity. Qed.

(** The zoom to the cursor rounds too: one notch with the cursor one pixel
    from the left edge of the initial view moves the world x under the
    cursor from -0.9975 to -0.9974999999999999. *)
Example zoom_anchor_rounds :
  let st := Scenario.start in
  let st' := (onWheel Scenario.notch Scenario.rect st).1 in
  let c := wheelCursor Scenario.notch Scenario.rect in
  PrimFloat.ltb 0 (scale st) = true
  ∧ (ndcToWorld st c.1 c.2).1 = (-0x1.feb851eb851ecp-1)%float
  ∧ (ndcToWorld st' c.1 c.2).1 = (-0x1.feb851eb851ebp-1)%float
  ∧ PrimFloat.eqb (ndcToWorld st' c.1 c.2).1 (ndcToWorld st c.1 c.2).1 = false.
Proof. vm_compute. repeat split; reflexivity. Qed.

(** The immediate path of [centerOnSelected] assigns the target it has
    computed, in any arithmetic. *)
Lemma centerOnSelected_immediate {N : JsNum} (st : Scatter N) (p : Point N)
    (now : num) :
  (0 ≤ selectedIndex st)%Z →
  thePoints st !! Z.to_nat (selectedIndex st) = Some p →
  ∃ st' cmds, centerOnSelected false now st = Ok (st', cmds, None)
    ∧ tx st' = nmul (nneg (x p)) (scale st)
    ∧ ty st' = nmul (nneg (y p)) (scale st)
    ∧ scale st' = scale st.
Proof.
  intros Hsel Hp. unfold centerOnSelected.
  rewrite (proj2 (Z.ltb_ge _ _) Hsel), Hp. simpl. by eexists _, _.
Qed.

(** C8.  The eased path of [centerOnSelected] misses the target it has
    computed.  The point at x = 0.1 is loaded and selected, and the view
    is dragged by 120 pixels, to a translation of 0.3.  Called with
    [smooth = false], [centerOnSelected] leaves the translation at the
    target, -0.1.  Called with [smooth = true] at 1000 ms, it computes the
    same target; the frame at 1150 ms has reached the fraction 1 and asks
    for no further frame, yet it leaves the translation at
    0.3 + (-0.1 - 0.3) * 1 = -0.10000000000000003, which is not the
    target. *)
Theorem eased_center_misses_target :
  let st := Scenario.selected3 in
  (tx st = 0x1.3333333333333p-2%float ∧ scale st = 1%float
   ∧ selectedIndex st = 0%Z)
  ∧ (∃ st' cmds,
       @centerOnSelected binary64 false (F64.of_Z 1000) st = Ok (st', cmds, None)
       ∧ tx st' = (-0x1.999999999999ap-4)%float)
  ∧ ∃ tr : Transition binary64,
      @centerOnSelected binary64 true (F64.of_Z 1000) st = Ok (st, [], Some tr)
      ∧ targetTx tr = (-0x1.999999999999ap-4)%float
      ∧ @fraction binary64 tr (F64.of_Z 1150) = 1%float
      ∧ (@step binary64 tr (F64.of_Z 1150) st).2 = false
      ∧ tx (@step binary64 tr (F64.of_Z 1150) st).1.1
        = (-0x1.999999999999cp-4)%float
      ∧ PrimFloat.eqb (tx (@step binary64 tr (F64.of_Z 1150) st).1.1)
          (targetTx tr) = false.
Proof.
  split; [vm_compute; repeat split; reflexivity |]. split.
  - assert (Hsel : (0 ≤ selectedIndex Scenario.selected3)%Z) by (by vm_compute).
    destruct (@centerOnSelected_immediate binary64 Scenario.selected3
                (Scenario.pt 3 (F64.lit 0.1) 0%float) (F64.of_Z 1000) Hsel eq_refl)
      as (st' & cmds & Hrun & Htx & _).
    exists st', cmds. split; [done |]. rewrite Htx. vm_compute. reflexivity.
  - eexists. split; [reflexivity |]. vm_compute. repeat split; reflexivity.
Qed.

(** ** Picking *)

Section Picking.
Context {N : JsNum} {O : JsOrder N}.
Implicit Types (st : Scatter N) (rect : Rect N) (best : PickResult N)
  (hit h b : PickHit N) (hits : list (PickHit N)).

Lemma StoreInv_gridValid st : StoreInv st → gridValid st.
Proof.
  intros Hinv key arr i Harr Hi.
  destruct (proj1 (inv_grid st Hinv key i)) as (p & Hp & _); [by exists arr | by exists p].
Qed.

(** *** The ring *)

Lemma ringSkip_false (r dx dy : Z) :
  ringSkip r dx dy = false ↔ (r ≤ 0 ∨ Z.abs dx = r ∨ Z.abs dy = r)%Z.
Proof.
  unfold ringSkip.
  destruct (Z.ltb_spec 0 r), (Z.eqb_spec (Z.abs dx) r), (Z.eqb_spec (Z.abs dy) r);
    simpl; split; intros; (done || lia).
Qed.

Lemma elem_of_ring (r dx dy : Z) :
  (0 ≤ r)%Z → (dx, dy) ∈ ring r ↔ Z.max (Z.abs dx) (Z.abs dy) = r.
Proof.
  intros Hr. unfold ring. rewrite list_elem_of_bind. split.
  - intros (dy' & Hin & Hdy). apply list_elem_of_bind in Hin as (dx' & Hin & Hdx).
    apply elem_of_seqZ in Hdy, Hdx.
    destruct (ringSkip r dx' dy') eqn:Hskip; [by apply elem_of_nil in Hin |].
    apply list_elem_of_singleton in Hin as [= -> ->].
    apply ringSkip_false in Hskip. lia.
  - intros Hmax. exists dy. split; [| apply elem_of_seqZ; lia].
    apply list_elem_of_bind. exists dx. split; [| apply elem_of_seqZ; lia].
    rewrite (proj2 (ringSkip_false r dx dy)) by lia. by apply list_elem_of_singleton.
Qed.

(** *** The scan keeps a nearest candidate *)

Lemma choose_is_Some best hit : is_Some (choose best hit).
Proof. unfold choose. destruct best as [b |]; [destruct (_ <? _)%js |]; eauto. Qed.

(** Scanning from a best hit [b0] ends with a hit that is [b0] or nearer,
    was scanned, and that no scanned hit is nearer than. *)
Lemma foldl_choose_Some b0 hits :
  ∃ b, foldl choose (Some b0) hits = Some b
    ∧ (b = b0 ∨ nlt (distPx b) (distPx b0) = true)
    ∧ b ∈ b0 :: hits
    ∧ ∀ h, h ∈ b0 :: hits → nlt (distPx h) (distPx b) = false.
Proof.
  revert b0. induction hits as [| h1 hits IH]; intros b0; simpl.
  - exists b0. split; [done |]. split; [by left |]. split; [by left |].
    intros h Hh. apply list_elem_of_singleton in Hh as ->. apply nlt_irrefl.
  - destruct (nlt (distPx h1) (distPx b0)) eqn:Hlt.
    + destruct (IH h1) as (b & Hfold & Hrel & Hin & Hmin). exists b.
      assert (Hb : nlt (distPx b) (distPx b0) = true).
      { destruct Hrel as [-> | Hrel]; [done | by eapply nlt_trans]. }
      split; [done |]. split; [by right |]. split; [by right |].
      intros h Hh. apply elem_of_cons in Hh as [-> | Hh]; [| by apply Hmin].
      apply not_true_is_false. intros Hcontra.
      pose proof (nlt_trans _ _ _ Hcontra Hb) as Hirr. by rewrite nlt_irrefl in Hirr.
    + destruct (IH b0) as (b & Hfold & Hrel & Hin & Hmin). exists b.
      split; [done |]. split; [done |]. split.
      { apply elem_of_cons in Hin as [-> | Hin]; [by left | by right; right]. }
      intros h Hh. apply elem_of_cons in Hh as [-> | Hh]; [by apply Hmin; left |].
      apply elem_of_cons in Hh as [-> | Hh]; [| by apply Hmin; right].
      destruct Hrel as [-> | Hrel]; [done |].
      apply not_true_is_false. intros Hcontra.
      pose proof (nlt_trans _ _ _ Hcontra Hrel) as Hirr. congruence.
Qed.

Lemma foldl_choose_None hits :
  hits ≠ [] →
  ∃ b, foldl choose None hits = Some b ∧ b ∈ hits
    ∧ ∀ h, h ∈ hits → nlt (distPx h) (distPx b) = false.
Proof.
  destruct hits as [| h1 hits]; [done |]. intros _. simpl.
  destruct (foldl_choose_Some h1 hits) as (b & ? & _ & ? & ?). by exists b.
Qed.

(** *** The loops of [pick] *)

Lemma hitsOf_app st rect px py (l1 l2 : list nat) :
  hitsOf st rect px py (l1 ++ l2) = hitsOf st rect px py l1 ++ hitsOf st rect px py l2.
Proof. apply omap_app. Qed.

Lemma hitsOf_nil_inv st rect px py (l : list nat) :
  (∀ i, i ∈ l → is_Some (thePoints st !! i)) → hitsOf st rect px py l = [] → l = [].
Proof.
  destruct l as [| i l]; [done |]. intros Hvalid. unfold hitsOf. simpl.
  destruct (Hvalid i) as [p ->]; [by left | done].
Qed.

Lemma scanCell_ok st rect px py (arr : list nat) best :
  (∀ i, i ∈ arr → is_Some (thePoints st !! i)) →
  scanCell st rect px py arr best = Ok (foldl choose best (hitsOf st rect px py arr)).
Proof.
  revert best. induction arr as [| i arr IH]; intros best Hvalid; [done |].
  simpl. unfold consider, hitsOf. simpl.
  destruct (Hvalid i) as [p Hp]; [by left |]. rewrite Hp. simpl.
  apply IH. intros j Hj. apply Hvalid. by right.
Qed.

Lemma scanRing_ok st rect px py gx gy (cells : list (Z * Z)) best :
  gridValid st →
  scanRing st rect px py gx gy cells best =
  Ok (foldl choose best (hitsOf st rect px py (candidatesAt st gx gy cells))).
Proof.
  intros Hvalid. revert best. induction cells as [| d cells IH]; intros best; [done |].
  unfold candidatesAt. simpl. fold (candidatesAt st gx gy cells).
  destruct (grid st !! keyAt gx gy d) as [arr |] eqn:Harr; simpl.
  - rewrite scanCell_ok by (intros i Hi; by eapply Hvalid). simpl.
    by rewrite IH, hitsOf_app, foldl_app.
  - apply IH.
Qed.

(** The loop over the radius stops at the first ring that has candidates,
    with a nearest one of that ring; it returns null when the [n] rings
    from [r] on have none. *)
Lemma pickFrom_spec st rect px py gx gy (n : nat) (r : Z) :
  gridValid st →
  (pickFrom st rect px py gx gy n r None = Ok None
   ∧ ∀ r', (r ≤ r' < r + Z.of_nat n)%Z → candidatesAt st gx gy (ring r') = [])
  ∨ ∃ R b, (r ≤ R < r + Z.of_nat n)%Z
      ∧ (∀ r', (r ≤ r' < R)%Z → candidatesAt st gx gy (ring r') = [])
      ∧ candidatesAt st gx gy (ring R) ≠ []
      ∧ pickFrom st rect px py gx gy n r None = Ok (Some b)
      ∧ b ∈ hitsOf st rect px py (candidatesAt st gx gy (ring R))
      ∧ ∀ h, h ∈ hitsOf st rect px py (candidatesAt st gx gy (ring R)) →
          nlt (distPx h) (distPx b) = false.
Proof.
  intros Hvalid. revert r. induction n as [| n IH]; intros r.
  - left. split; [done |]. intros r' ?. lia.
  - cbn [pickFrom]. rewrite scanRing_ok by done. cbn [mbind outcome_bind].
    destruct (candidatesAt st gx gy (ring r)) as [| i cands] eqn:Hc.
    + cbn [hitsOf omap foldl].
      destruct (IH (r + 1)%Z) as [[Hrun Hnone] | (R & b & HR & Hnone & Hrest)].
      * left. split; [done |]. intros r' Hr'.
        destruct (decide (r' = r)) as [-> | Hne]; [done | apply Hnone; lia].
      * right. exists R, b. split; [lia |]. split; [| done]. intros r' Hr'.
        destruct (decide (r' = r)) as [-> | Hne]; [done | apply Hnone; lia].
    + assert (Hhits : hitsOf st rect px py (i :: cands) ≠ []).
      { intros Hnil. apply hitsOf_nil_inv in Hnil; [done |].
        intros j Hj. rewrite <- Hc in Hj. unfold candidatesAt in Hj.
        apply list_elem_of_bind in Hj as (d & Hj & _).
        destruct (grid st !! keyAt gx gy d) as [arr |] eqn:Harr; simpl in Hj.
        - by eapply Hvalid.
        - by apply elem_of_nil in Hj. }
      destruct (foldl_choose_None _ Hhits) as (b & Hfold & Hin & Hmin).
      rewrite Hfold. right. exists r, b. rewrite Hc.
      split; [lia |]. split; [intros; lia |]. split; done.
Qed.

(** *** Cells that are not looked up do not matter *)

Lemma scanCell_sameScene st st' rect px py (arr : list nat) best :
  sameScene st st' →
  scanCell st' rect px py arr best = scanCell st rect px py arr best.
Proof.
  intros (HP & Hs & Hx & Hy). revert best.
  induction arr as [| i arr IH]; intros best; [done |].
  simpl. unfold consider, candidateHit, worldToNdc. rewrite HP, Hs, Hx, Hy.
  destruct (thePoints st !! i); simpl; [apply IH | done].
Qed.

Lemma scanRing_sameCells st st' rect px py gx gy (cells : list (Z * Z)) best :
  sameScene st st' →
  (∀ d, d ∈ cells → grid st' !! keyAt gx gy d = grid st !! keyAt gx gy d) →
  scanRing st' rect px py gx gy cells best = scanRing st rect px py gx gy cells best.
Proof.
  intros Hscene. revert best.
  induction cells as [| d cells IH]; intros best Hcells; [done |].
  simpl. rewrite (Hcells d) by by left.
  destruct (grid st !! keyAt gx gy d) as [arr |].
  - rewrite (scanCell_sameScene st st') by done.
    destruct (scanCell st rect px py arr best); simpl; [| done].
    apply IH. intros d' Hd'. apply Hcells. by right.
  - apply IH. intros d' Hd'. apply Hcells. by right.
Qed.

(** The loop over the radius gives the same result on a grid that agrees
    on the rings up to [R], when the loop ends by [R]: its last round is at
    [R] or before, or the ring [R] has a candidate. *)
Lemma pickFrom_sameCells st st' rect px py gx gy (n : nat) (r R : Z) :
  gridValid st → sameScene st st' →
  (∀ r' d, (r ≤ r' ≤ R)%Z → d ∈ ring r' →
     grid st' !! keyAt gx gy d = grid st !! keyAt gx gy d) →
  (r + Z.of_nat n ≤ R + 1 ∨ (r ≤ R ∧ candidatesAt st gx gy (ring R) ≠ []))%Z →
  pickFrom st' rect px py gx gy n r None = pickFrom st rect px py gx gy n r None.
Proof.
  intros Hvalid Hscene. revert r. induction n as [| n IH]; intros r Hcells Hstop; [done |].
  assert (Hr : (r ≤ R)%Z) by lia.
  cbn [pickFrom].
  rewrite (scanRing_sameCells st st')
    by first [done | intros; apply (Hcells r); [lia | done]].
  rewrite scanRing_ok by done. cbn [mbind outcome_bind].
  destruct (foldl choose None _) as [b |] eqn:Hfold; [done |].
  apply IH; [intros r' d Hr' Hd; apply (Hcells r'); [lia | done] |].
  destruct Hstop as [Hstop | [_ Hstop]]; [left; lia |].
  right. split; [| done]. destruct (decide (r = R)) as [-> | Hne]; [| lia].
  exfalso. destruct (candidatesAt st gx gy (ring R)) as [| i cands] eqn:Hc; [done |].
  assert (Hhits : hitsOf st rect px py (i :: cands) ≠ []).
  { intros Hnil. apply hitsOf_nil_inv in Hnil; [done |].
    intros j Hj. rewrite <- Hc in Hj. unfold candidatesAt in Hj.
    apply list_elem_of_bind in Hj as (d & Hj & _).
    destruct (grid st !! keyAt gx gy d) as [arr |] eqn:Harr; simpl in Hj.
    - by eapply Hvalid.
    - by apply elem_of_nil in Hj. }
  destruct (foldl_choose_None _ Hhits) as (b & Hb & _). congruence.
Qed.

End Picking.

(** The last radius a pick looks at, and what it returns. *)
Lemma pick_last_radius {N : JsNum} {O : JsOrder N}
    (px py : num) (rect : Rect N) (st : Scatter N) :
  StoreInv st →
  ∃ R, (0 ≤ R ≤ maxR)%Z
    ∧ (∀ r, (0 ≤ r < R)%Z → candidates st rect px py r = [])
    ∧ (∀ st', sameScene st st' → sameCells st st' rect px py R →
         pick px py rect st' = pick px py rect st)
    ∧ ((R = maxR ∧ candidates st rect px py R = []
        ∧ pick px py rect st = Ok None)
       ∨ ∃ hit, pick px py rect st = Ok (Some hit)
           ∧ hit ∈ hitsOf st rect px py (candidates st rect px py R)
           ∧ ∀ h, h ∈ hitsOf st rect px py (candidates st rect px py R) →
               nlt (distPx h) (distPx hit) = false).
Proof.
  intros Hinv.
  pose proof (StoreInv_gridValid st Hinv) as Hvalid.
  assert (Hext : ∀ R st', (0 ≤ R)%Z →
            (49 ≤ R + 1 ∨ candidates st rect px py R ≠ [])%Z →
            sameScene st st' → sameCells st st' rect px py R →
            pick px py rect st' = pick px py rect st).
  { intros R st' HR Hstop Hscene Hcells. unfold pick.
    assert (Hq : queryCell px py rect st' = queryCell px py rect st).
    { destruct Hscene as (_ & Hs & Hx & Hy).
      unfold queryCell, ndcToWorld. by rewrite Hs, Hx, Hy. }
    rewrite Hq. unfold sameCells, candidates in *.
    destruct (queryCell px py rect st) as [gx gy]. cbn [fst snd] in *.
    change (Z.to_nat (maxR + 1)) with 49%nat.
    apply (pickFrom_sameCells st st' rect px py gx gy 49 0 R); try done.
    destruct Hstop as [? | ?]; [left; lia | by right]. }
  unfold pick, candidates in *. destruct (queryCell px py rect st) as [gx gy].
  cbn [fst snd] in *. change (Z.to_nat (maxR + 1)) with 49%nat in *.
  destruct (pickFrom_spec st rect px py gx gy 49 0 Hvalid)
    as [[Hrun Hnone] | (R & b & HR & Hnone & Hsome & Hrun & Hin & Hmin)].
  - exists maxR. unfold maxR. split; [lia |]. split; [intros; apply Hnone; lia |].
    split; [intros st' ? ?; apply (Hext 48%Z); (done || lia) |].
    left. split; [done |]. split; [apply Hnone; lia | done].
  - exists R. unfold maxR. split; [lia |]. split; [done |].
    split; [intros st' ? ?; apply (Hext R); (done || lia || by right) |].
    right. by exists b.
Qed.

(** In binary64, when the distances are not NaN, the result of a pick is at
    most as far as every candidate of its ring. *)
Lemma pick_nearest_binary64
    (px py : PrimFloat.float) (rect : Rect binary64) (st : Scatter binary64)
    (hit : PickHit binary64) :
  StoreInv st →
  @pick binary64 px py rect st = Ok (Some hit) →
  PrimFloat.is_nan (distPx hit) = false →
  ∃ R, (0 ≤ R ≤ maxR)%Z
    ∧ hit ∈ hitsOf st rect px py (candidates st rect px py R)
    ∧ ∀ h, h ∈ hitsOf st rect px py (candidates st rect px py R) →
        PrimFloat.is_nan (distPx h) = false →
        PrimFloat.leb (distPx hit) (distPx h) = true.
Proof.
  intros Hinv Hpick Hnan.
  destruct (@pick_last_radius binary64 binary64_order px py rect st Hinv)
    as (R & HR & _ & _ & [(_ & _ & Hnone) | (b & Hb & Hin & Hmin)]); [congruence |].
  assert (b = hit) as -> by congruence.
  exists R. split; [done |]. split; [done |]. intros h Hh Hhnan.
  apply F64Order.not_ltb_leb; [done | done | by apply Hmin].
Qed.

(** The embedded functions and the words of the specification. *)
Section PickWords.
Context {N : JsNum}.
Implicit Types (st : Scatter N) (rect : Rect N).

Lemma queryCell_cellOfQuery st rect (px py : num) :
  queryCell px py rect st = cellOfQuery st rect px py.
Proof. reflexivity. Qed.

Lemma candidateHit_hitOf st rect (px py : num) (p : Point N) :
  candidateHit st rect px py p = hitOf st rect px py p.
Proof. reflexivity. Qed.

Lemma keyAt_keyOfCell st rect (px py : num) (dx dy : Z) :
  keyAt (queryCell px py rect st).1 (queryCell px py rect st).2 (dx, dy)
  = keyOfCell st rect px py dx dy.
Proof. reflexivity. Qed.

(** The candidates of a radius are the indices listed in its ring. *)
Lemma elem_of_candidates st rect (px py : num) (r : Z) (i : nat) :
  (0 ≤ r)%Z →
  i ∈ candidates st rect px py r ↔ inRing st rect px py r i.
Proof.
  intros Hr. unfold candidates, candidatesAt, inRing.
  rewrite list_elem_of_bind. split.
  - intros ([dx dy] & Hi & Hd). apply (elem_of_ring r dx dy Hr) in Hd.
    rewrite keyAt_keyOfCell in Hi.
    destruct (grid st !! keyOfCell st rect px py dx dy) as [arr |] eqn:Harr.
    + by exists dx, dy, arr.
    + by apply elem_of_nil in Hi.
  - intros (dx & dy & arr & Hmax & Harr & Hi). exists (dx, dy). split.
    + by rewrite keyAt_keyOfCell, Harr.
    + by apply (elem_of_ring r dx dy Hr).
Qed.

Lemma candidates_nil st rect (px py : num) (r : Z) :
  (0 ≤ r)%Z →
  candidates st rect px py r = [] ↔ ∀ i, ¬ inRing st rect px py r i.
Proof.
  intros Hr. split.
  - intros Hnil i Hi. apply (elem_of_candidates st rect px py r i Hr) in Hi.
    rewrite Hnil in Hi. by apply elem_of_nil in Hi.
  - intros Hnone. destruct (candidates st rect px py r) as [| i l] eqn:E; [done |].
    destruct (Hnone i). apply (elem_of_candidates st rect px py r i Hr).
    rewrite E. by left.
Qed.

(** The records of the candidates are the records of the points in the
    ring. *)
Lemma elem_of_hitsOf st rect (px py : num) (r : Z) (hit : PickHit N) :
  (0 ≤ r)%Z →
  hit ∈ hitsOf st rect px py (candidates st rect px py r) ↔
  ∃ i p, inRing st rect px py r i ∧ thePoints st !! i = Some p
         ∧ hit = hitOf st rect px py p.
Proof.
  intros Hr. unfold hitsOf. rewrite list_elem_of_omap. split.
  - intros (i & Hi & Hhit). apply (elem_of_candidates st rect px py r i Hr) in Hi.
    destruct (thePoints st !! i) as [p |] eqn:Hp; [| done].
    injection Hhit as <-. by exists i, p.
  - intros (i & p & Hi & Hp & ->). exists i. split.
    + by apply (elem_of_candidates st rect px py r i Hr).
    + by rewrite Hp.
Qed.

End PickWords.

(** C2. In a state whose grid agrees with its points (as in every state a
    viewer reaches), [pick] does not throw.  The cell of the query is the
    cell of the world point under the pixel; at radius 0 the search looks
    at that cell only, and at a radius [r] > 0 at the cells at the offsets
    with max(|dx|, |dy|) = r.  There is a last radius [R] <= 48 it looks
    at: no ring below [R] lists an index, and the result is the same for
    any grid with the same cells at the offsets with max(|dx|, |dy|) <= R,
    whatever its other cells hold.  Either [R] is the cap 48, no ring lists
    an index and the result is null; or the result is the record of a point
    listed in the ring of radius [R] (its id, its coordinates and its
    distance on the screen from the pixel), and no point listed in that
    ring is strictly nearer on the screen. *)
Theorem pick_first_nonempty_ring {N : JsNum} {O : JsOrder N}
    (px py : num) (rect : Rect N) (st : Scatter N) :
  StoreInv st →
  ring 0 = [(0%Z, 0%Z)]
  ∧ (∀ r dx dy, (0 ≤ r)%Z →
       (dx, dy) ∈ ring r ↔ Z.max (Z.abs dx) (Z.abs dy) = r)
  ∧ ∃ R, (0 ≤ R ≤ 48)%Z
      ∧ (∀ r i, (0 ≤ r < R)%Z → ¬ inRing st rect px py r i)
      ∧ (∀ st',
           thePoints st' = thePoints st →
           scale st' = scale st → tx st' = tx st → ty st' = ty st →
           (∀ dx dy, (Z.max (Z.abs dx) (Z.abs dy) ≤ R)%Z →
              grid st' !! keyOfCell st rect px py dx dy
              = grid st !! keyOfCell st rect px py dx dy) →
           pick px py rect st' = pick px py rect st)
      ∧ ((R = 48%Z ∧ (∀ i, ¬ inRing st rect px py R i)
          ∧ pick px py rect st = Ok None)
         ∨ ∃ i p, inRing st rect px py R i ∧ thePoints st !! i = Some p
             ∧ pick px py rect st
               = Ok (Some {| hit_id := id p; hit_x := x p; hit_y := y p;
                             distPx := screenDistance st rect px py p |})
             ∧ ∀ j q, inRing st rect px py R j → thePoints st !! j = Some q →
                 nlt (screenDistance st rect px py q)
                     (screenDistance st rect px py p) = false).
Proof.
  intros Hinv. split; [reflexivity |]. split; [intros; by apply elem_of_ring |].
  destruct (pick_last_radius px py rect st Hinv)
    as (R & HR & Hnone & Hsame & Hres).
  exists R. unfold maxR in HR. split; [done |]. split.
  { intros r i Hr. apply (candidates_nil st rect px py r); [lia |].
    by apply Hnone. }
  split.
  { intros st' HP Hs Hx Hy Hcells. apply Hsame; [done |].
    intros r [dx dy] Hr Hd. rewrite keyAt_keyOfCell. apply Hcells.
    apply (elem_of_ring r dx dy) in Hd; lia. }
  destruct Hres as [(-> & Hnil & Hrun) | (hit & Hrun & Hin & Hmin)].
  - left. split; [done |]. split; [| done].
    by apply (candidates_nil st rect px py maxR).
  - right. apply (elem_of_hitsOf st rect px py R hit) in Hin as (i & p & Hi & Hp & ->);
      [| lia].
    exists i, p. do 3 (split; [done |]). intros j q Hj Hq.
    apply (Hmin (hitOf st rect px py q)).
    apply (elem_of_hitsOf st rect px py R); [lia |]. by exists j, q.
Qed.

(** A witness for C2: the pick example of the specification, a click at the
    centre of the canvas with the points 7 and 8 loaded. *)
Lemma pick_first_nonempty_ring_witness :
  let st := (setPoints 2%nat Scenario.start).1 in
  let px := F64.of_Z 400 in
  let py := F64.of_Z 300 in
  StoreInv st
  ∧ ∃ R, (0 ≤ R ≤ 48)%Z
      ∧ (∀ r i, (0 ≤ r < R)%Z → ¬ inRing st Scenario.rect px py r i)
      ∧ ((R = 48%Z ∧ (∀ i, ¬ inRing st Scenario.rect px py R i)
          ∧ @pick binary64 px py Scenario.rect st = Ok None)
         ∨ ∃ i p, inRing st Scenario.rect px py R i ∧ thePoints st !! i = Some p
             ∧ @pick binary64 px py Scenario.rect st
               = Ok (Some {| hit_id := id p; hit_x := x p; hit_y := y p;
                             distPx := screenDistance st Scenario.rect px py p |})
             ∧ ∀ j q, inRing st Scenario.rect px py R j →
                 thePoints st !! j = Some q →
                 PrimFloat.ltb (screenDistance st Scenario.rect px py q)
                               (screenDistance st Scenario.rect px py p) = false).
Proof.
  destruct (@pick_first_nonempty_ring binary64 binary64_order
              (F64.of_Z 400) (F64.of_Z 300) Scenario.rect
              (setPoints 2%nat Scenario.start).1
              (setPoints_inv 2%nat Scenario.start))
    as (_ & _ & R & HR & Hnone & _ & Hres).
  exact (conj (setPoints_inv 2%nat Scenario.start)
              (ex_intro _ R (conj HR (conj Hnone Hres)))).
Defined.

(** The pick example of the specification: the click at the centre returns
    the point 7 at distance 0, a click at the top right the point 8, and a
    click on an empty store returns null. *)
Example pick_example :
  picked (@pick binary64 (F64.of_Z 400) (F64.of_Z 300) Scenario.rect
            (setPoints 2%nat Scenario.start).1)
  = Ok (Some (7%Z, 0%float))
  ∧ fmap (M:=outcome) (fmap (M:=option) fst)
      (picked (@pick binary64 (F64.of_Z 700) (F64.of_Z 50) Scenario.rect
                 (setPoints 2%nat Scenario.start).1))
    = Ok (Some 8%Z)
  ∧ picked (@pick binary64 (F64.of_Z 400) (F64.of_Z 300) Scenario.rect Scenario.start)
    = Ok None.
Proof. vm_compute. repeat split; reflexivity. Qed.

(** * More properties of the code *)

(** ** Store calls and view events keep to their own fields *)

Section Separation.
Context {N : JsNum}.
Implicit Types (st : Scatter N) (ev : Event N).

(** X15. A call that changes the store ([setPoints], [appendPoints]) leaves
    the view (scale, translation), the selection index and the drag state
    as they were; every other event (selection, centring, mouse, wheel,
    animation frame) leaves the reference to the points, the packed buffer,
    the id→index map and the grid as they were. *)
Theorem events_keep_to_their_fields ev st st' :
  react ev st = Ok st' →
  (isStoreCall ev = true →
     scale st' = scale st ∧ tx st' = tx st ∧ ty st' = ty st
     ∧ selectedIndex st' = selectedIndex st ∧ dragging st' = dragging st)
  ∧ (isStoreCall ev = false →
       arrays st' = arrays st ∧ points st' = points st ∧ data st' = data st
       ∧ idToIndex st' = idToIndex st ∧ grid st' = grid st).
Proof.
  destruct ev as [r | r fits | oid | smooth now | e | | e rect | e rect | tr now];
    simpl; intros Hev; (split; [intros Hs | intros Hs]); try done.
  - injection Hev as <-. destruct (setPoints_view r st) as (? & ? & ? & ? & ? & _).
    done.
  - destruct (appendPoints r fits st) as [[st1 cmds] | err] eqn:Happ; [| done].
    injection Hev as <-.
    destruct (appendPoints_fields r fits st st1 cmds Happ)
      as (_ & _ & ? & ? & ? & ? & ? & _). done.
  - injection Hev as <-. by destruct oid.
  - unfold centerOnSelected in Hev. destruct (selectedIndex st <? 0)%Z.
    { by injection Hev as <-. }
    destruct (thePoints st !! Z.to_nat (selectedIndex st)); [| done].
    destruct smooth; simpl in Hev; by injection Hev as <-.
  - injection Hev as <-. unfold onMouseDown. by destruct (button e =? 2)%Z.
  - by injection Hev as <-.
  - injection Hev as <-. unfold onMouseMove. by destruct (dragging st).
  - injection Hev as <-. unfold onWheel. by destruct (wheelCursor e rect).
  - by injection Hev as <-.
Qed.

End Separation.

(** A witness for X15: a wheel notch on the viewer with nothing loaded. *)
Lemma events_keep_to_their_fields_witness :
  let ev := Wheel Scenario.notch Scenario.rect in
  let st' := (onWheel Scenario.notch Scenario.rect Scenario.start).1 in
  react ev Scenario.start = Ok st'
  ∧ (isStoreCall ev = false →
       arrays st' = arrays Scenario.start ∧ points st' = points Scenario.start
       ∧ data st' = data Scenario.start
       ∧ idToIndex st' = idToIndex Scenario.start ∧ grid st' = grid Scenario.start).
Proof.
  exact (conj eq_refl
    (proj2 (events_keep_to_their_fields
       (Wheel Scenario.notch Scenario.rect) Scenario.start _ eq_refl))).
Defined.

(** ** More about the store *)

Section StoreMore.
Context {N : JsNum}.
Implicit Types (st : Scatter N) (ev : Event N) (pts : list (Point N)).

(** X3. Calling [setPoints] a second time with the same array changes
    nothing: the second call leaves the state of the first and draws the
    same frame. *)
Theorem setPoints_twice (r : nat) st :
  setPoints r (setPoints r st).1 = setPoints r st.
Proof.
  assert (Hst : (setPoints r (setPoints r st).1).1 = (setPoints r st).1).
  { destruct (setPoints_view r st) as (Hs & Hx & Hy & Hsel & Hdr & HlX & HlY & Harr).
    assert (Ha : array (setPoints r st).1 r = array st r)
      by (unfold array; by rewrite Harr).
    rewrite (setPoints_state r (setPoints r st).1).
    rewrite Ha, Harr, Hs, Hx, Hy, Hsel, Hdr, HlX, HlY.
    destruct (setPoints_inv r st) as [_ _ _].
    by rewrite (setPoints_state r st). }
  apply injective_projections; [done |].
  by rewrite (setPoints_frame r (setPoints r st).1), Hst, <- setPoints_frame.
Qed.

(** X1. In a state whose structures agree with its points, an
    [appendPoints] whose [push] the engine takes does not throw.  It puts
    the batch after the points that were there, its packed floats after the
    buffer that was there, and maps every id of the batch to the old count
    plus its last position in the batch; the ids the batch does not have
    keep their index, every index stays under the keys it was under, and
    the view and the selection are untouched.  On an empty batch it returns
    the state as it was and draws nothing, whatever the engine takes.  When
    the engine refuses the [push] of a batch that is not empty, the call
    throws a [RangeError]. *)
Theorem appendPoints_extends (r : nat) st :
  StoreInv st →
  (∃ st' cmds, appendPoints r true st = Ok (st', cmds)
    ∧ thePoints st' = thePoints st ++ array st r
    ∧ data st' = data st ++ dataOf (array st r)
    ∧ (∀ k, idToIndex st' !! k =
            match lastOcc k (array st r) with
            | Some j => Some (length (thePoints st) + j)%nat
            | None => idToIndex st !! k
            end)
    ∧ (∀ key i, inCell (grid st) key i → inCell (grid st') key i)
    ∧ scale st' = scale st ∧ tx st' = tx st ∧ ty st' = ty st
    ∧ selectedIndex st' = selectedIndex st
    ∧ (array st r = [] → st' = st ∧ cmds = []))
  ∧ appendPoints r false st
    = match array st r with
      | [] => Ok (st, [])
      | _ :: _ => Throw RangeError
      end.
Proof.
  intros Hinv. split; [| rewrite appendPoints_refused; by destruct (array st r)].
  destruct (appendPoints_store r st Hinv)
    as (st' & cmds & Hrun & _ & HP & Hdata & Hmap & Hgrid).
  exists st', cmds. split; [done |].
  destruct (appendPoints_fields r true st st' cmds Hrun)
    as (_ & _ & Hs & Hx & Hy & Hsel & _ & _ & _ & Hnil & _).
  done.
Qed.

End StoreMore.

(** A witness for X1: the pair of points appended to the two points with
    the same id. *)
Lemma appendPoints_extends_witness :
  let st := (setPoints 1%nat Scenario.start).1 in
  StoreInv st
  ∧ (∃ (st' : Scatter binary64) (cmds : list (GlCmd binary64)),
       appendPoints 2%nat true st = Ok (st', cmds)
       ∧ thePoints st' = thePoints st ++ array st 2%nat)
  ∧ (fun _ => tt) <$> appendPoints 2%nat false st = Throw RangeError.
Proof.
  destruct (appendPoints_extends 2%nat (setPoints 1%nat Scenario.start).1
              (setPoints_inv 1%nat Scenario.start))
    as ((st' & cmds & Hrun & HP & _) & Hrefused).
  exact (conj (setPoints_inv 1%nat Scenario.start)
              (conj (ex_intro _ st' (ex_intro _ cmds (conj Hrun HP)))
                    (f_equal (fmap (fun _ => tt)) Hrefused))).
Defined.

(** ** The grid, built at once or in steps *)

Section GridMore.
Context {N : JsNum}.
Implicit Types (st : Scatter N) (pts rest : list (Point N))
  (g : gmap GridKey (list nat)).

Lemma gridLoop_app i pts rest g :
  gridLoop i (pts ++ rest) g = gridLoop (i + length pts) rest (gridLoop i pts g).
Proof.
  revert i g. induction pts as [| p pts IH]; intros i g; simpl.
  - by rewrite Nat.add_0_r.
  - rewrite IH. f_equal. lia.
Qed.

(** The grid that a non-empty [appendPoints] leaves, when the batch is not
    the viewer's own array. *)
Lemma appendPoints_grid (r : nat) (fits : bool) st st' (cmds : list (GlCmd N)) :
  appendPoints r fits st = Ok (st', cmds) → r ≠ points st →
  grid st' = gridLoop (length (thePoints st)) (array st r) (grid st).
Proof.
  intros Hrun Hne. apply appendPoints_Ok in Hrun. unfold appendPoints in Hrun.
  destruct (array st r) as [| p0 ext] eqn:Hext.
  { simpl in Hrun. by injection Hrun as <- <-. }
  rewrite <- Hext in *.
  replace (length (array st r) =? 0)%nat with false in Hrun by (by rewrite Hext).
  cbn [negb] in Hrun. set (st1 := set_arrays _ st) in Hrun.
  assert (HP1 : thePoints st1 = thePoints st ++ array st r).
  { unfold thePoints, array, st1. simpl. by rewrite lookup_insert_eq. }
  assert (Hr : array st1 r = array st r).
  { unfold array, st1. simpl. by rewrite lookup_insert_ne. }
  rewrite Hr, HP1 in Hrun.
  destruct (typedSet _ _) as [nd | err]; [| done]. cbn [mbind outcome_bind] in Hrun.
  destruct (appendPointsLoop _ _ _ _ _) as [d m]. injection Hrun as <- <-.
  unfold addToGrid. simpl.
  change (thePoints (set_data d (set_idToIndex m st1))) with (thePoints st1).
  rewrite HP1, length_app.
  replace (length (thePoints st) + length (array st r) - length (array st r))%nat
    with (length (thePoints st)) by lia.
  by rewrite drop_app_length.
Qed.

(** A cell stays in increasing order when an index above all of its own is
    pushed. *)
Lemma increasing_snoc (arr : list nat) (i : nat) :
  increasing arr → (∀ a, a ∈ arr → (a < i)%nat) → increasing (arr ++ [i]).
Proof.
  intros Hinc Hlt j1 j2 a b Hj Ha Hb.
  destruct (decide (j2 < length arr)%nat) as [Hin | Hout].
  - rewrite lookup_app_l in Ha by lia. rewrite lookup_app_l in Hb by lia.
    exact (Hinc j1 j2 a b Hj Ha Hb).
  - pose proof (lookup_lt_Some _ _ _ Hb) as Hj2.
    rewrite length_app in Hj2. simpl in Hj2.
    rewrite (lookup_app_r arr) in Hb by lia.
    apply list_lookup_singleton_Some in Hb as [_ <-].
    rewrite lookup_app_l in Ha by lia. apply Hlt. by eapply list_elem_of_lookup_2.
Qed.

Lemma increasing_NoDup (arr : list nat) : increasing arr → NoDup arr.
Proof.
  intros Hinc. apply NoDup_alt. intros i j a Hi Hj.
  destruct (Nat.lt_trichotomy i j) as [Hlt | [-> | Hlt]]; [| done |].
  - pose proof (Hinc i j a a Hlt Hi Hj). lia.
  - pose proof (Hinc j i a a Hlt Hj Hi). lia.
Qed.

(** The grid loop keeps every cell in increasing order, when it starts above
    every index the grid has. *)
Lemma gridLoop_increasing i rest g :
  (∀ key arr, g !! key = Some arr → increasing arr ∧ ∀ a, a ∈ arr → (a < i)%nat) →
  ∀ key arr, gridLoop i rest g !! key = Some arr →
    increasing arr ∧ ∀ a, a ∈ arr → (a < i + length rest)%nat.
Proof.
  revert i g. induction rest as [| p rest IH]; intros i g Hg key arr; simpl.
  - intros Harr. destruct (Hg key arr Harr) as [? Hlt]. split; [done |].
    intros a Ha. specialize (Hlt a Ha). lia.
  - intros Harr. replace (i + S (length rest))%nat with (S i + length rest)%nat by lia.
    refine (IH (S i) (gridPush (cellKey p) i g) _ key arr Harr).
    clear key arr Harr. intros key arr. unfold gridPush.
    destruct (g !! cellKey p) as [arr0 |] eqn:E0;
      (destruct (decide (key = cellKey p)) as [-> | Hne];
       [rewrite lookup_insert_eq; intros [= <-]
       | rewrite lookup_insert_ne by done; intros Harr]).
    + destruct (Hg _ _ E0) as [Hinc Hlt]. split; [by apply increasing_snoc |].
      intros a Ha. apply elem_of_app in Ha as [Ha | Ha]; [specialize (Hlt a Ha); lia |].
      apply list_elem_of_singleton in Ha as ->. lia.
    + destruct (Hg _ _ Harr) as [Hinc Hlt]. split; [done |].
      intros a Ha. specialize (Hlt a Ha). lia.
    + split.
      * intros j1 j2 a b Hj Ha Hb. apply lookup_lt_Some in Hb. simpl in Hb. lia.
      * intros a Ha. apply list_elem_of_singleton in Ha as ->. lia.
    + destruct (Hg _ _ Harr) as [Hinc Hlt]. split; [done |].
      intros a Ha. specialize (Hlt a Ha). lia.
Qed.

(** X4. After [setPoints] every cell of the grid lists its indices in
    increasing order, so no index is listed twice; [appendPoints] keeps it
    so when the batch is not the viewer's own array.  (When it is, the old
    indices are pushed a second time.) *)
Theorem grid_lists_each_index_once :
  (∀ (r : nat) st, gridSorted (setPoints r st).1)
  ∧ (∀ (r : nat) (fits : bool) st st' (cmds : list (GlCmd N)),
       StoreInv st → gridSorted st → r ≠ points st →
       appendPoints r fits st = Ok (st', cmds) → gridSorted st')
  ∧ (∀ st, gridSorted st → ∀ key arr, grid st !! key = Some arr → NoDup arr).
Proof.
  split; [| split].
  - intros r st key arr. rewrite setPoints_state. simpl. intros Harr.
    refine (proj1 (gridLoop_increasing 0 (array st r) ∅ _ key arr Harr)).
    intros key' arr' H'. by rewrite lookup_empty in H'.
  - intros r fits st st' cmds Hinv Hsorted Hne Hrun key arr.
    rewrite (appendPoints_grid r fits st st' cmds Hrun Hne). intros Harr.
    refine (proj1 (gridLoop_increasing _ _ (grid st) _ key arr Harr)).
    intros key' arr' H'. split; [by eapply Hsorted |].
    intros a Ha.
    destruct (proj1 (inv_grid st Hinv key' a)) as (p & Hp & _); [by exists arr' |].
    by apply lookup_lt_Some in Hp.
  - intros st Hsorted key arr Harr. apply increasing_NoDup. by eapply Hsorted.
Qed.

(** X2. Loading an array and then appending a second one (not the same
    array, and in a call whose [push] the engine takes) leaves the same points, packed buffer, id→index map and grid as
    loading one array that holds the two in a row. *)
Theorem append_after_set_is_set_of_both (a b c : nat) st :
  b ≠ a → array st c = array st a ++ array st b →
  ∃ st2 (cmds : list (GlCmd N)),
    appendPoints b true (setPoints a st).1 = Ok (st2, cmds)
    ∧ thePoints st2 = thePoints (setPoints c st).1
    ∧ data st2 = data (setPoints c st).1
    ∧ idToIndex st2 = idToIndex (setPoints c st).1
    ∧ grid st2 = grid (setPoints c st).1.
Proof.
  intros Hne Hc.
  pose proof (setPoints_inv a st) as Hinv1. pose proof (setPoints_inv c st) as Hinvc.
  destruct (setPoints_view a st) as (_ & _ & _ & _ & _ & _ & _ & Harr).
  assert (Hb : array (setPoints a st).1 b = array st b)
    by (unfold array; by rewrite Harr).
  assert (Hpts : points (setPoints a st).1 = a) by (by rewrite setPoints_state).
  destruct (appendPoints_inv b _ Hinv1) as (st2 & cmds & Hrun & Hinv2).
  exists st2, cmds. split; [done |].
  destruct (appendPoints_fields b true _ st2 cmds Hrun) as (HP & _).
  rewrite thePoints_setPoints, Hb in HP.
  assert (HP2 : thePoints st2 = thePoints (setPoints c st).1)
    by (by rewrite thePoints_setPoints, Hc).
  split; [done |]. split.
  { by rewrite (inv_data _ Hinv2), (inv_data _ Hinvc), HP2. }
  split.
  { apply map_eq. intros k. by rewrite (inv_map _ Hinv2), (inv_map _ Hinvc), HP2. }
  rewrite (appendPoints_grid b true _ st2 cmds Hrun) by (by rewrite Hpts).
  rewrite thePoints_setPoints, Hb.
  rewrite (setPoints_state a st), (setPoints_state c st). simpl.
  by rewrite Hc, gridLoop_app.
Qed.

End GridMore.

(** More arrays of the host: the second one after the first. *)
Lemma append_after_set_is_set_of_both_witness :
  let h : gmap nat (list (Point binary64)) :=
    {[ 1%nat := Scenario.dupIds; 2%nat := Scenario.pair78;
       4%nat := Scenario.dupIds ++ Scenario.pair78 ]} in
  let st := @init binary64 h 0%nat 0%float 0%float in
  (2%nat ≠ 1%nat ∧ array st 4%nat = array st 1%nat ++ array st 2%nat)
  ∧ ∃ (st2 : Scatter binary64) (cmds : list (GlCmd binary64)),
      appendPoints 2%nat true (setPoints 1%nat st).1 = Ok (st2, cmds)
      ∧ thePoints st2 = thePoints (setPoints 4%nat st).1
      ∧ data st2 = data (setPoints 4%nat st).1
      ∧ idToIndex st2 = idToIndex (setPoints 4%nat st).1
      ∧ grid st2 = grid (setPoints 4%nat st).1.
Proof.
  assert (Hne : 2%nat ≠ 1%nat) by lia.
  exact (conj (conj Hne eq_refl)
    (@append_after_set_is_set_of_both binary64 1%nat 2%nat 4%nat
       (@init binary64
          {[ 1%nat := Scenario.dupIds; 2%nat := Scenario.pair78;
             4%nat := Scenario.dupIds ++ Scenario.pair78 ]}
          0%nat 0%float 0%float)
       Hne eq_refl)).
Defined.

(** A witness for X4: the pair of points appended to the two with the same
    id. *)
Lemma grid_lists_each_index_once_witness :
  let st := (setPoints 1%nat Scenario.start).1 in
  (StoreInv st ∧ gridSorted st ∧ 2%nat ≠ points st)
  ∧ ∀ (st' : Scatter binary64) (cmds : list (GlCmd binary64)),
      appendPoints 2%nat true st = Ok (st', cmds) → gridSorted st'.
Proof.
  assert (Hne : 2%nat ≠ points (setPoints 1%nat Scenario.start).1)
    by (rewrite setPoints_state; simpl; lia).
  destruct (@grid_lists_each_index_once binary64) as (Hset & Happ & _).
  exact (conj (conj (setPoints_inv 1%nat Scenario.start)
                 (conj (Hset 1%nat Scenario.start) Hne))
           (fun st' cmds =>
              Happ 2%nat true _ st' cmds (setPoints_inv 1%nat Scenario.start)
                (Hset 1%nat Scenario.start) Hne)).
Defined.

(** ** Uploads of the packed buffer *)

(** [Ok a = Ok b] gives [a = b], without reducing either side. *)
Ltac ok_inj H :=
  match type of H with
  | Ok ?a = Ok ?b => assert (a = b) as <- by congruence; clear H
  end.

Section Uploads.
Context {N : JsNum}.
Implicit Types (st : Scatter N) (ev : Event N).

(** A frame uploads the buffer when it is dirty, and leaves it clean. *)
Lemma uploads_draw st :
  uploads (draw st).2 = (if needsUpload st then [data st] else [])
  ∧ needsUpload (draw st).1 = false.
Proof. unfold draw. simpl. by destruct (needsUpload st), (overlayGuard st). Qed.

(** No event leaves the buffer dirty. *)
Lemma react_clean ev st st' :
  needsUpload st = false → react ev st = Ok st' → needsUpload st' = false.
Proof.
  intros Hclean.
  destruct ev as [r | r fits | oid | smooth now | e | | e rect | e rect | tr now];
    simpl; intros Hev.
  - injection Hev as <-. by rewrite setPoints_state.
  - destruct (appendPoints r fits st) as [[st1 cmds] | err] eqn:Happ; [| done].
    injection Hev as <-.
    destruct (appendPoints_fields r fits st st1 cmds Happ)
      as (_ & _ & _ & _ & _ & _ & _ & _ & _ & Hnil & Hcons).
    destruct (array st r) as [| p0 ext] eqn:Hext.
    + by destruct Hnil as [-> _].
    + by apply Hcons.
  - injection Hev as <-. by destruct oid.
  - unfold centerOnSelected in Hev. destruct (selectedIndex st <? 0)%Z.
    { by injection Hev as <-. }
    destruct (thePoints st !! Z.to_nat (selectedIndex st)); [| done].
    destruct smooth; simpl in Hev; by injection Hev as <-.
  - injection Hev as <-. unfold onMouseDown. by destruct (button e =? 2)%Z.
  - by injection Hev as <-.
  - injection Hev as <-. unfold onMouseMove. by destruct (dragging st).
  - injection Hev as <-. unfold onWheel. by destruct (wheelCursor e rect).
  - by injection Hev as <-.
Qed.

Lemma run_clean (evs : list (Event N)) st st' :
  needsUpload st = false → run evs st = Ok st' → needsUpload st' = false.
Proof.
  revert st. induction evs as [| ev evs IH]; intros st Hclean; simpl.
  - by intros [= <-].
  - destruct (react ev st) as [st1 | err] eqn:Hev; [| done]. simpl.
    apply IH. by eapply react_clean.
Qed.

(** X5. In every state a viewer reaches the buffer is clean, and the frame
    of the next event uploads the packed buffer exactly when the event
    changed it: [setPoints] uploads the packed floats of its array, a
    non-empty [appendPoints] uploads the old buffer followed by the packed
    floats of the batch, and no other event uploads anything. *)
Theorem uploads_follow_store_calls
    (h : gmap nat (list (Point N))) (own : nat) (w ht : num)
    (evs : list (Event N)) st ev (cmds : list (GlCmd N)) :
  run evs (init h own w ht) = Ok st →
  frame ev st = Ok cmds →
  needsUpload st = false
  ∧ uploads cmds =
      match ev with
      | CallSetPoints r => [dataOf (array st r)]
      | CallAppendPoints r _ =>
          match array st r with
          | [] => []
          | _ :: _ => [data st ++ dataOf (array st r)]
          end
      | _ => []
      end.
Proof.
  intros Hrun Hframe.
  pose proof (run_inv evs _ st (init_inv h own w ht) Hrun) as Hinv.
  pose proof (run_clean evs (init h own w ht) st eq_refl Hrun) as Hclean.
  split; [done |].
  assert (Hdraw : ∀ st0, needsUpload st0 = false → uploads (draw st0).2 = []).
  { intros st0 H0. destruct (uploads_draw st0) as [-> _]. by rewrite H0. }
  destruct ev as [r | r fits | oid | smooth now | e | | e rect | e rect | tr now];
    unfold frame in Hframe.
  - ok_inj Hframe. rewrite setPoints_frame.
    destruct (uploads_draw (set_needsUpload true (setPoints r st).1)) as [-> _].
    simpl. change (data (set_needsUpload true (setPoints r st).1))
      with (data (setPoints r st).1).
    by rewrite (inv_data _ (setPoints_inv r st)), thePoints_setPoints.
  - destruct (appendPoints r fits st) as [[st1 cmds1] | err] eqn:Happ; [| done].
    simpl in Hframe. ok_inj Hframe.
    destruct (appendPoints_store r st Hinv)
      as (st2 & cmds2 & Happ2 & _ & _ & Hdata & _).
    rewrite (appendPoints_Ok r fits st st1 cmds1 Happ) in Happ2.
    injection Happ2 as <- <-.
    destruct (appendPoints_fields r fits st st1 cmds1 Happ)
      as (_ & _ & _ & _ & _ & _ & _ & _ & _ & Hnil & _).
    destruct (array st r) as [| p0 ext] eqn:Hext.
    + by destruct (Hnil eq_refl) as [_ ->].
    + rewrite (appendPoints_frame r fits st st1 cmds1 Happ) by (by rewrite Hext).
      destruct (uploads_draw (set_needsUpload true st1)) as [-> _]. simpl.
      change (data (set_needsUpload true st1)) with (data st1).
      by rewrite Hdata.
  - ok_inj Hframe. unfold setSelectedId, invalidate.
    destruct oid; by apply Hdraw.
  - unfold centerOnSelected in Hframe. destruct (selectedIndex st <? 0)%Z.
    { cbn [fmap outcome_fmap fst snd] in Hframe. by ok_inj Hframe. }
    destruct (thePoints st !! Z.to_nat (selectedIndex st)); [| done].
    destruct smooth; cbn [negb] in Hframe.
    + cbn [fmap outcome_fmap fst snd] in Hframe. by ok_inj Hframe.
    + unfold invalidate in Hframe.
      match type of Hframe with
      | context [draw ?s] =>
          destruct (draw s) as [st1 cmds1] eqn:Hd;
          pose proof (Hdraw s Hclean) as Hup; rewrite Hd in Hup
      end.
      cbn [fmap outcome_fmap fst snd] in Hframe. by ok_inj Hframe.
  - by ok_inj Hframe.
  - by ok_inj Hframe.
  - ok_inj Hframe. unfold onMouseMove, invalidate.
    destruct (dragging st); cbn [negb]; [by apply Hdraw | done].
  - ok_inj Hframe. unfold onWheel, invalidate.
    destruct (wheelCursor e rect) as [sx sy].
    destruct (ndcToWorld st sx sy) as [wx wy]. by apply Hdraw.
  - ok_inj Hframe. unfold step, invalidate. cbn [fst snd].
    by apply Hdraw.
Qed.

End Uploads.

(** A witness for X5: the points 7 and 8 are loaded, then the wheel turns. *)
Lemma uploads_follow_store_calls_witness :
  let st := (setPoints 2%nat Scenario.start).1 in
  let ev := Wheel Scenario.notch Scenario.rect in
  (run [CallSetPoints 2%nat] Scenario.start = Ok st
   ∧ frame ev st = Ok (onWheel Scenario.notch Scenario.rect st).2)
  ∧ needsUpload st = false
  ∧ uploads (onWheel Scenario.notch Scenario.rect st).2 = [].
Proof.
  exact (conj (conj eq_refl eq_refl)
    (@uploads_follow_store_calls binary64 Scenario.hostArrays 0%nat
       (F64.of_Z 800) (F64.of_Z 600) [CallSetPoints 2%nat]
       (setPoints 2%nat Scenario.start).1
       (Wheel Scenario.notch Scenario.rect) _ eq_refl eq_refl)).
Defined.

(** ** Exceptions *)

Section Robust.
Context {N : JsNum}.
Implicit Types (st : Scatter N) (ev : Event N).

(** The events that are not store calls show the same points. *)
Lemma react_same_points ev st st' :
  isStoreCall ev = false → react ev st = Ok st' →
  thePoints st' = thePoints st ∧ idToIndex st' = idToIndex st
  ∧ grid st' = grid st.
Proof.
  destruct ev as [r | r fits | oid | smooth now | e | | e rect | e rect | tr now];
    simpl; intros Hs Hev; try done.
  - injection Hev as <-. by destruct oid.
  - unfold centerOnSelected in Hev. destruct (selectedIndex st <? 0)%Z.
    { by injection Hev as <-. }
    destruct (thePoints st !! Z.to_nat (selectedIndex st)); [| done].
    destruct smooth; simpl in Hev; by injection Hev as <-.
  - injection Hev as <-. unfold onMouseDown. by destruct (button e =? 2)%Z.
  - by injection Hev as <-.
  - injection Hev as <-. unfold onMouseMove. by destruct (dragging st).
  - injection Hev as <-. unfold onWheel. by destruct (wheelCursor e rect).
  - by injection Hev as <-.
Qed.

(** The events that do not select keep the selection index. *)
Lemma react_same_selection ev st st' :
  (∀ oid, ev ≠ CallSetSelectedId oid) → react ev st = Ok st' →
  selectedIndex st' = selectedIndex st.
Proof.
  destruct ev as [r | r fits | oid | smooth now | e | | e rect | e rect | tr now];
    simpl; intros Hs Hev.
  - injection Hev as <-. by rewrite setPoints_state.
  - destruct (appendPoints r fits st) as [[st1 cmds] | err] eqn:Happ; [| done].
    injection Hev as <-.
    by destruct (appendPoints_fields r fits st st1 cmds Happ)
      as (_ & _ & _ & _ & _ & ? & _).
  - by destruct (Hs oid).
  - unfold centerOnSelected in Hev. destruct (selectedIndex st <? 0)%Z.
    { by injection Hev as <-. }
    destruct (thePoints st !! Z.to_nat (selectedIndex st)); [| done].
    destruct smooth; simpl in Hev; by injection Hev as <-.
  - injection Hev as <-. unfold onMouseDown. by destruct (button e =? 2)%Z.
  - by injection Hev as <-.
  - injection Hev as <-. unfold onMouseMove. by destruct (dragging st).
  - injection Hev as <-. unfold onWheel. by destruct (wheelCursor e rect).
  - by injection Hev as <-.
Qed.

(** [centerOnSelected] throws exactly on an index past the last point. *)
Lemma centerOnSelected_throws (smooth : bool) (now : num) st err :
  centerOnSelected smooth now st = Throw err ↔
  err = TypeError ∧ (Z.of_nat (length (thePoints st)) ≤ selectedIndex st)%Z.
Proof.
  unfold centerOnSelected.
  destruct (selectedIndex st <? 0)%Z eqn:Hneg.
  { apply Z.ltb_lt in Hneg. split; [done | lia]. }
  apply Z.ltb_ge in Hneg.
  destruct (thePoints st !! Z.to_nat (selectedIndex st)) as [p |] eqn:Hp.
  - apply lookup_lt_Some in Hp.
    split; [by destruct smooth | lia].
  - apply lookup_ge_None in Hp. split.
    + intros [= <-]. split; [done | lia].
    + by intros [-> _].
Qed.

(** After [setSelectedId] the selection is valid. *)
Lemma setSelectedId_selValid (oid : option Z) st :
  StoreInv st → selValid (setSelectedId oid st).1.
Proof.
  intros Hinv. unfold selValid.
  assert (HP : thePoints (setSelectedId oid st).1 = thePoints st)
    by (by destruct oid).
  rewrite HP. destruct oid as [k |]; simpl; [| lia].
  rewrite (inv_map st Hinv k).
  destruct (lastOcc k (thePoints st)) as [j |] eqn:Hj; [| lia].
  apply lastOcc_lt in Hj. lia.
Qed.

(** What an exception means, in a consistent state. *)
Lemma react_throws_cases ev st err :
  StoreInv st → react ev st = Throw err →
  ((∃ smooth now, ev = CallCenterOnSelected smooth now)
   ∧ err = TypeError
   ∧ (Z.of_nat (length (thePoints st)) ≤ selectedIndex st)%Z)
  ∨ ((∃ r, ev = CallAppendPoints r false ∧ array st r ≠ [])
     ∧ err = RangeError).
Proof.
  intros Hinv.
  destruct ev as [r | r fits | oid | smooth now | e | | e rect | e rect | tr now];
    simpl; try done.
  - destruct fits.
    + by destruct (appendPoints_inv r st Hinv) as (st1 & cmds & -> & _).
    + rewrite appendPoints_refused.
      destruct (array st r) as [| p0 ext] eqn:Hext; [done |]. simpl.
      intros [= <-]. right. split; [| done]. exists r. by rewrite Hext.
  - destruct (centerOnSelected smooth now st) as [res | err'] eqn:Hc; [done |].
    simpl. apply centerOnSelected_throws in Hc as [-> Hlen].
    intros [= <-]. left. eauto.
Qed.

(** X6. In a state where the store is consistent, two events throw and no
    other: [centerOnSelected], with the [TypeError] of reading [p.x] of
    [undefined], exactly when the selection index is past the last point;
    and [appendPoints], with a [RangeError], exactly when the engine
    refuses the [push] of a batch that is not empty. *)
Theorem only_a_stale_selection_throws ev st err :
  StoreInv st →
  react ev st = Throw err ↔
  ((∃ smooth now, ev = CallCenterOnSelected smooth now)
   ∧ err = TypeError
   ∧ (Z.of_nat (length (thePoints st)) ≤ selectedIndex st)%Z)
  ∨ ((∃ r, ev = CallAppendPoints r false ∧ array st r ≠ [])
     ∧ err = RangeError).
Proof.
  intros Hinv. split; [by apply react_throws_cases |].
  intros [((smooth & now & ->) & -> & Hlen) | ((r & -> & Hne) & ->)]; simpl.
  - assert (centerOnSelected smooth now st = Throw TypeError) as ->
      by (by apply centerOnSelected_throws).
    done.
  - rewrite appendPoints_refused. by destruct (array st r).
Qed.

(** X7. A valid selection stays valid, and nothing throws, as long as
    [setPoints] is not called and the engine takes every [push]: from a
    consistent state with a valid selection every sequence of such events
    runs to its end. *)
Theorem no_exception_without_setPoints (evs : list (Event N)) st :
  StoreInv st → selValid st →
  forallb (fun ev => negb (isSetPoints ev) && eventFits ev) evs = true →
  ∃ st', run evs st = Ok st' ∧ StoreInv st' ∧ selValid st'.
Proof.
  revert st. induction evs as [| ev evs IH]; intros st Hinv Hsel Hevs.
  { by exists st. }
  simpl in Hevs. apply andb_true_iff in Hevs as [Hev Hevs].
  apply andb_true_iff in Hev as [Hev Hfits].
  assert (∃ st1, react ev st = Ok st1 ∧ selValid st1) as (st1 & Hst1 & Hsel1).
  { destruct (react ev st) as [st1 | err] eqn:Hreact.
    - exists st1. split; [done |].
      assert (Hkeep : isStoreCall ev = false →
                (∀ oid, ev ≠ CallSetSelectedId oid) → selValid st1).
      { intros Hs Hn. unfold selValid in *.
        destruct (react_same_points ev st st1 Hs Hreact) as (-> & _).
        by rewrite (react_same_selection ev st st1 Hn Hreact). }
      destruct ev as [r | r fits | oid | smooth now | e | | e rect | e rect | tr now];
        try (by apply Hkeep).
      + simpl in Hreact.
        destruct (appendPoints r fits st) as [[st2 cmds] | err] eqn:Happ; [| done].
        injection Hreact as <-.
        destruct (appendPoints_fields r fits st st2 cmds Happ)
          as (HP & _ & _ & _ & _ & Hsi & _).
        unfold selValid in *. rewrite HP, Hsi, length_app. lia.
      + injection Hreact as <-. by apply setSelectedId_selValid.
    - apply (react_throws_cases ev st err Hinv) in Hreact
        as [(_ & _ & Hlen) | ((r & -> & _) & _)].
      + unfold selValid in Hsel. lia.
      + done. }
  simpl. rewrite Hst1. simpl. apply IH; [| done | done].
  by apply (react_inv ev st).
Qed.

End Robust.

(** A witness for X6: id 8 is selected at index 1, one point is loaded over
    the two, and the camera is asked to centre. *)
Lemma only_a_stale_selection_throws_witness :
  let st := (setPoints 3%nat Scenario.selected8).1 in
  let ev := @CallCenterOnSelected binary64 true 0%float in
  StoreInv st
  ∧ (react ev st = Throw TypeError ↔
     ((∃ smooth now, ev = CallCenterOnSelected smooth now)
      ∧ TypeError = TypeError
      ∧ (Z.of_nat (length (thePoints st)) ≤ selectedIndex st)%Z)
     ∨ ((∃ r, ev = CallAppendPoints r false ∧ array st r ≠ [])
        ∧ TypeError = RangeError)).
Proof.
  exact (conj (setPoints_inv 3%nat Scenario.selected8)
    (only_a_stale_selection_throws
       (@CallCenterOnSelected binary64 true 0%float)
       (setPoints 3%nat Scenario.selected8).1 TypeError
       (setPoints_inv 3%nat Scenario.selected8))).
Defined.

(** A witness for X7: two points are loaded; then two more are appended,
    id 8 is selected, the camera centres on it and the wheel turns. *)
Lemma no_exception_without_setPoints_witness :
  let st := (setPoints 2%nat Scenario.start).1 in
  let evs := [ @CallAppendPoints binary64 1%nat true; CallSetSelectedId (Some 8%Z);
               @CallCenterOnSelected binary64 false 0%float;
               Wheel Scenario.notch Scenario.rect ] in
  (StoreInv st ∧ selValid st
   ∧ forallb (fun ev => negb (isSetPoints ev) && eventFits ev) evs = true)
  ∧ ∃ st', run evs st = Ok st' ∧ StoreInv st' ∧ selValid st'.
Proof.
  assert (Hsel : selValid (setPoints 2%nat Scenario.start).1)
    by (vm_compute; reflexivity).
  exact (conj (conj (setPoints_inv 2%nat Scenario.start) (conj Hsel eq_refl))
    (no_exception_without_setPoints
       [ @CallAppendPoints binary64 1%nat true; CallSetSelectedId (Some 8%Z);
         @CallCenterOnSelected binary64 false 0%float;
         Wheel Scenario.notch Scenario.rect ]
       (setPoints 2%nat Scenario.start).1
       (setPoints_inv 2%nat Scenario.start) Hsel eq_refl)).
Defined.

(** ** What a click reports *)

Section Clicks.
Context {N : JsNum} {O : JsOrder N}.
Implicit Types (st : Scatter N).
Local Open Scope js_scope.

(** The record of a point, field by field. *)
Lemma candidateHit_fields st (rect : Rect N) (px py : num) (p : Point N) :
  let hit := candidateHit st rect px py p in
  hit_id hit = id p ∧ hit_x hit = x p ∧ hit_y hit = y p
  ∧ distPx hit = nhypot ((pixelOf st rect (x p) (y p)).1 - px)
                        ((pixelOf st rect (x p) (y p)).2 - py).
Proof. done. Qed.

(** X8. In a state where the store is consistent a click never throws.
    What it hands to [onPick] is null when there are no points, and
    otherwise null or the record of a current point: the point's id (which
    the id→index map knows) and coordinates, and the distance in CSS pixels
    between the click and the place the point is shown at. *)
Theorem click_reports_a_current_point (e : MouseEvent N) (rect : Rect N) st :
  StoreInv st →
  let px := clientX e - rectLeft rect in
  let py := clientY e - rectTop rect in
  ∃ res, onClick e rect st = Ok res
    ∧ (thePoints st = [] → res = None)
    ∧ ∀ hit, res = Some hit →
        ∃ i p, thePoints st !! i = Some p
          ∧ hit_id hit = id p ∧ hit_x hit = x p ∧ hit_y hit = y p
          ∧ distPx hit = nhypot ((pixelOf st rect (x p) (y p)).1 - px)
                                ((pixelOf st rect (x p) (y p)).2 - py)
          ∧ is_Some (idToIndex st !! hit_id hit).
Proof.
  intros Hinv px py. unfold onClick. fold px py.
  assert (Hhit : ∀ hit R,
            hit ∈ hitsOf st rect px py (candidates st rect px py R) →
            ∃ i p, thePoints st !! i = Some p
                 ∧ hit = candidateHit st rect px py p).
  { intros hit R Hin. unfold hitsOf in Hin.
    apply list_elem_of_omap in Hin as (i & _ & Hi).
    destruct (thePoints st !! i) as [p |] eqn:Hp; [| done].
    injection Hi as <-. by exists i, p. }
  destruct (pick_last_radius px py rect st Hinv)
    as (R & _ & _ & _ & [(_ & _ & ->) | (hit & -> & Hin & _)]).
  { exists None. split; [done |]. split; [done |]. by intros hit. }
  destruct (Hhit hit R Hin) as (i & p & Hp & ->).
  exists (Some (candidateHit st rect px py p)). split; [done |]. split.
  { intros Hnil. by rewrite Hnil in Hp. }
  intros hit [= <-]. exists i, p. split; [done |].
  do 4 (split; [done |]).
  change (hit_id (candidateHit st rect px py p)) with (id p).
  rewrite (inv_map st Hinv (id p)).
  destruct (lastOcc (id p) (thePoints st)) as [j |] eqn:Hj; [by eexists |].
  exfalso. by eapply (proj1 (lastOcc_None _ _) Hj i p).
Qed.

End Clicks.

(** A witness for X8: a click at the centre of the canvas with the points 7
    and 8 loaded. *)
Lemma click_reports_a_current_point_witness :
  let st := (setPoints 2%nat Scenario.start).1 in
  let e := @Build_MouseEvent binary64 0%Z (F64.of_Z 400) (F64.of_Z 300) in
  StoreInv st
  ∧ ∃ res, onClick e Scenario.rect st = Ok res
      ∧ (thePoints st = [] → res = None).
Proof.
  destruct (@click_reports_a_current_point binary64 binary64_order
              (@Build_MouseEvent binary64 0%Z (F64.of_Z 400) (F64.of_Z 300))
              Scenario.rect (setPoints 2%nat Scenario.start).1
              (setPoints_inv 2%nat Scenario.start))
    as (res & Hres & Hnil & _).
  exact (conj (setPoints_inv 2%nat Scenario.start)
              (ex_intro _ res (conj Hres Hnil))).
Defined.

(** ** Selecting an id the map knows *)

Section Selecting.
Context {N : JsNum}.
Implicit Types (st : Scatter N).

(** X14. When the id→index map has the id, [setSelectedId] selects the
    last point that carries it; the frame it draws has the highlight at
    that index, and [centerOnSelected] then returns without throwing. *)
Theorem known_id_selects_its_last_point (k : Z) (j : nat) st :
  StoreInv st → idToIndex st !! k = Some j →
  let st' := (setSelectedId (Some k) st).1 in
  selectedIndex st' = Z.of_nat j
  ∧ (∃ p, thePoints st !! j = Some p ∧ id p = k)
  ∧ (∀ j' q, (j < j')%nat → thePoints st !! j' = Some q → id q ≠ k)
  ∧ drawCalls (setSelectedId (Some k) st).2
    = [(0%Z, Z.of_nat (length (thePoints st))); (Z.of_nat j, 1%Z)]
  ∧ ∀ smooth now, ∃ res, centerOnSelected smooth now st' = Ok res.
Proof.
  intros Hinv Hk st'.
  assert (Hst' : setSelectedId (Some k) st
                 = draw (set_selectedIndex (Z.of_nat j) st)).
  { unfold setSelectedId. by rewrite Hk. }
  rewrite (inv_map st Hinv k) in Hk.
  pose proof (lastOcc_lt _ _ _ Hk) as Hlt.
  apply lastOcc_Some in Hk as [(p & Hp & Hid) Hlast].
  unfold st'. rewrite Hst'. split; [done |]. split; [by exists p |].
  split; [done |]. split.
  - rewrite drawCalls_draw.
    replace (overlayGuard (set_selectedIndex (Z.of_nat j) st)) with true; [done |].
    symmetry. apply overlayGuard_spec. simpl.
    change (thePoints (set_selectedIndex (Z.of_nat j) st)) with (thePoints st).
    lia.
  - intros smooth now. unfold centerOnSelected.
    change (selectedIndex (draw (set_selectedIndex (Z.of_nat j) st)).1)
      with (Z.of_nat j).
    change (thePoints (draw (set_selectedIndex (Z.of_nat j) st)).1)
      with (thePoints st).
    replace (Z.of_nat j <? 0)%Z with false by (symmetry; apply Z.ltb_ge; lia).
    rewrite Nat2Z.id, Hp. destruct smooth; cbn [negb]; [by eexists |].
    unfold invalidate.
    match goal with |- context [draw ?s] => destruct (draw s) as [st2 cmds] end.
    by eexists.
Qed.

End Selecting.

(** A witness for X14: the points 7 and 8 are loaded, and id 8 is asked for. *)
Lemma known_id_selects_its_last_point_witness :
  let st := (setPoints 2%nat Scenario.start).1 in
  (StoreInv st ∧ idToIndex st !! 8%Z = Some 1%nat)
  ∧ selectedIndex (setSelectedId (Some 8%Z) st).1 = 1%Z.
Proof.
  assert (Hk : idToIndex (setPoints 2%nat Scenario.start).1 !! 8%Z = Some 1%nat)
    by (vm_compute; reflexivity).
  exact (conj (conj (setPoints_inv 2%nat Scenario.start) Hk)
    (proj1 (known_id_selects_its_last_point 8%Z 1%nat
              (setPoints 2%nat Scenario.start).1
              (setPoints_inv 2%nat Scenario.start) Hk))).
Defined.

(** * The page *)

(** ** Loading the coordinates *)

Section Loading.
Context {N : JsNum}.
Implicit Types (tbl rows : list (Row N)) (pts : list (Point N)) (pg : Page N).

(** [page] is not zero. *)
Lemma page_pos : (0 < page)%nat.
Proof. unfold page. lia. Qed.

Lemma take_drop_length {A} (n : nat) (l : list A) :
  take n l ++ drop (length (take n l)) l = l.
Proof.
  rewrite length_take. destruct (decide (n ≤ length l)%nat).
  - rewrite Nat.min_l by done. apply take_drop.
  - rewrite Nat.min_r by lia. rewrite take_ge, drop_all by lia. apply app_nil_r.
Qed.

(** One round of the loop. *)
Lemma loadLoop_S (get_coords : nat → nat → nat → reply (list (Row N)))
    (fuel k off : nat) pts (asked : list nat) :
  loadLoop get_coords (S fuel) k off pts asked =
  match get_coords k off page with
  | Rejected => Some (Rejected, asked ++ [off])
  | Resolved rows =>
      if (length rows =? 0)%nat then Some (Resolved pts, asked ++ [off])
      else loadLoop get_coords fuel (S k) (off + length rows)
             (pts ++ (toPoint <$> rows)) (asked ++ [off])
  end.
Proof. done. Qed.

(** The loop, for a backend that serves a table in pieces. *)
Lemma loadLoop_pages (get_coords : nat → nat → nat → reply (list (Row N))) tbl :
  (∀ k off, ∃ n, get_coords k off page = Resolved (take n (drop off tbl))
               ∧ ((off < length tbl)%nat → (0 < n)%nat)) →
  ∀ (m k off : nat) pts (asked : list nat),
    (length tbl - off ≤ m)%nat → (off ≤ length tbl)%nat →
    ∃ asked', loadLoop get_coords (S m) k off pts asked
              = Some (Resolved (pts ++ (toPoint <$> drop off tbl)), asked')
      ∧ last asked' = Some (length tbl).
Proof.
  intros Hpager. induction m as [| m IH]; intros k off pts asked Hm Hoff;
    rewrite loadLoop_S; destruct (Hpager k off) as (n & -> & Hn).
  - assert (off = length tbl) as -> by lia.
    rewrite drop_all, take_nil. simpl. rewrite app_nil_r.
    eexists. split; [done |]. by rewrite last_snoc.
  - destruct (decide (off = length tbl)) as [-> | Hne].
    { rewrite drop_all, take_nil. simpl. rewrite app_nil_r.
      eexists. split; [done |]. by rewrite last_snoc. }
    assert (Hlen : length (take n (drop off tbl))
                   = (n `min` (length tbl - off))%nat)
      by (by rewrite length_take, length_drop).
    assert (0 < n)%nat by (apply Hn; lia).
    replace (length (take n (drop off tbl)) =? 0)%nat with false
      by (symmetry; apply Nat.eqb_neq; lia).
    destruct (IH (S k) (off + length (take n (drop off tbl)))%nat
                (pts ++ (toPoint <$> take n (drop off tbl))) (asked ++ [off]))
      as (asked' & Hrun & Hlast); [lia | lia |].
    exists asked'. split; [| done]. rewrite Hrun. do 3 f_equal.
    rewrite <- app_assoc, <- fmap_app. do 2 f_equal.
    rewrite <- drop_drop. apply take_drop_length.
Qed.

(** X16. When the backend serves a table of rows in pieces (each reply is
    a stretch of the table from the requested offset on, and is not empty
    before the end of the table), [loadCoords] comes to an end, the last
    offset it asks for is the length of the table, and the viewer then
    holds the rows of the table as its points, in order, with a packed
    buffer, an id map and a grid that agree with them.  The view and the
    selection index are as before, and the cache of paths is empty. *)
Theorem loadCoords_reads_the_table
    (get_coords : nat → nat → nat → reply (list (Row N))) tbl pg :
  (∀ k off, ∃ n, get_coords k off page = Resolved (take n (drop off tbl))
               ∧ ((off < length tbl)%nat → (0 < n)%nat)) →
  (∃ asked, loadLoop get_coords (S (length tbl)) 0 0 [] []
            = Some (Resolved (toPoint <$> tbl), asked)
     ∧ last asked = Some (length tbl))
  ∧ ∃ pg', loadCoords get_coords (S (length tbl)) pg = Some (Resolved pg')
      ∧ thePoints (scatter pg') = toPoint <$> tbl
      ∧ StoreInv (scatter pg')
      ∧ idToPath pg' = ∅
      ∧ scale (scatter pg') = scale (scatter pg)
      ∧ tx (scatter pg') = tx (scatter pg)
      ∧ ty (scatter pg') = ty (scatter pg)
      ∧ selectedIndex (scatter pg') = selectedIndex (scatter pg)
      ∧ currentPath pg' = currentPath pg.
Proof.
  intros Hpager.
  destruct (loadLoop_pages get_coords tbl Hpager (length tbl) 0 0 [] [])
    as (asked & Hrun & Hlast); [lia | lia |].
  rewrite drop_0 in Hrun. cbn [app] in Hrun.
  split; [by exists asked |].
  unfold loadCoords. rewrite Hrun.
  exists (finishLoad (toPoint <$> tbl) pg). split; [done |].
  unfold finishLoad. cbn [scatter idToPath currentPath].
  set (r := fresh (dom (arrays (scatter pg)))).
  set (sc := set_arrays _ (scatter pg)).
  split.
  { rewrite thePoints_setPoints. unfold array, sc. simpl.
    by rewrite lookup_insert_eq. }
  split; [apply setPoints_inv |]. split; [done |].
  destruct (setPoints_view r sc) as (-> & -> & -> & -> & _). done.
Qed.

End Loading.

(** A witness for X16: a table of two rows, served a page at a time. *)
Lemma loadCoords_reads_the_table_witness :
  let tbl := [ @Build_Row binary64 7%Z 0%float 0%float;
               @Build_Row binary64 8%Z (F64.lit 0.9) (F64.lit 0.9) ] in
  let get_coords := fun (k off limit : nat) => Resolved (take limit (drop off tbl)) in
  let pg := {| scatter := Scenario.start; idToPath := ∅;
               currentPath := None; selPathText := "" |} in
  (∀ k off, ∃ n, get_coords k off page = Resolved (take n (drop off tbl))
               ∧ ((off < length tbl)%nat → (0 < n)%nat))
  ∧ ∃ pg', loadCoords get_coords (S (length tbl)) pg = Some (Resolved pg')
      ∧ thePoints (scatter pg') = toPoint <$> tbl.
Proof.
  set (tbl := [ @Build_Row binary64 7%Z 0%float 0%float;
                @Build_Row binary64 8%Z (F64.lit 0.9) (F64.lit 0.9) ]).
  set (get_coords := fun (k off limit : nat) =>
                       Resolved (take limit (drop off tbl))).
  set (pg := {| scatter := Scenario.start; idToPath := ∅;
                currentPath := None; selPathText := "" |}).
  assert (Hpager : ∀ k off, ∃ n,
            get_coords k off page = Resolved (take n (drop off tbl))
            ∧ ((off < length tbl)%nat → (0 < n)%nat)).
  { intros k off. exists page. split; [done |]. intros _. apply page_pos. }
  destruct (loadCoords_reads_the_table get_coords tbl pg Hpager)
    as (_ & pg' & Hrun & HP & _).
  exact (conj Hpager (ex_intro _ pg' (conj Hrun HP))).
Defined.

(** ** Playing what was picked *)

Section Playing.
Context {N : JsNum}.
Implicit Types (pg : Page N) (res : PickResult N)
  (picks : list (reply string * reply unit * PickResult N)).

Lemma truthy_Some (o : option string) (p : string) :
  truthy o = Some p ↔ o = Some p ∧ p ≠ "".
Proof.
  unfold truthy. destruct o as [q |]; [| by split; [| intros [? _]]].
  destruct (String.eqb q "") eqn:E.
  - apply String.eqb_eq in E. split; [done |]. intros [[= ->] ?]. done.
  - apply String.eqb_neq in E. split.
    + by intros [= ->].
    + by intros [[= ->] _].
Qed.

(** What [playPath] changes and sends. *)
Lemma playPath_spec (play : reply unit) (path : string) pg :
  scatter (playPath play path pg).1 = scatter pg
  ∧ idToPath (playPath play path pg).1 = idToPath pg
  ∧ ∀ c, c ∈ (playPath play path pg).2 →
      c = PlayFile path ∨ c = CopyToClipboard path.
Proof.
  unfold playPath. destruct play as [[] |]; simpl.
  - do 2 (split; [done |]). intros c Hc.
    apply elem_of_cons in Hc as [-> | Hc]; [by left |].
    apply list_elem_of_singleton in Hc as ->. by right.
  - do 2 (split; [done |]). intros c Hc.
    apply list_elem_of_singleton in Hc as ->. by left.
Qed.

(** The picks of an id whose path is in the cache. *)
Lemma onPicks_cached picks pg (k : Z) (p : string) :
  truthy (idToPath pg !! k) = Some p →
  (∀ info play res hit, (info, play, res) ∈ picks → res = Some hit →
     hit_id hit = k) →
  scatter (onPicks picks pg).1 = scatter pg
  ∧ idToPath (onPicks picks pg).1 = idToPath pg
  ∧ ∀ c, c ∈ (onPicks picks pg).2 → c = PlayFile p ∨ c = CopyToClipboard p.
Proof.
  revert pg. induction picks as [| [[info play] res] picks IH];
    intros pg Hp Hk.
  { simpl. do 2 (split; [done |]). intros c Hc. by apply elem_of_nil in Hc. }
  cbn [onPicks].
  assert (Hstep : scatter (onPick info play res pg).1 = scatter pg
            ∧ idToPath (onPick info play res pg).1 = idToPath pg
            ∧ ∀ c, c ∈ (onPick info play res pg).2 →
                c = PlayFile p ∨ c = CopyToClipboard p).
  { destruct res as [hit |]; simpl.
    - unfold pickTask.
      rewrite (Hk info play (Some hit) hit (list_elem_of_here _ _) eq_refl), Hp.
      apply playPath_spec.
    - do 2 (split; [done |]). intros c Hc. by apply elem_of_nil in Hc. }
  destruct (onPick info play res pg) as [pg1 sent1].
  cbn [fst snd] in Hstep. destruct Hstep as (Hs1 & Hm1 & Hc1).
  destruct (IH pg1) as (Hs2 & Hm2 & Hc2).
  { by rewrite Hm1. }
  { intros info' play' res' hit' Hin. apply (Hk info' play' res' hit').
    by apply list_elem_of_further. }
  destruct (onPicks picks pg1) as [pg2 sent2]. cbn [fst snd] in *.
  split; [congruence |]. split; [congruence |].
  intros c Hc. apply elem_of_app in Hc as [Hc | Hc]; auto.
Qed.

(** X17. Repeated picks of one point play one file and ask for its path at
    most once.  For a sequence of picks that are null or hits of the id
    [k], with a backend that answers [get_file_info] with non-empty paths
    (possibly a different one each time): the tasks leave the viewer as it
    is, send [get_file_info] at most once, and every [play_file] and
    [copy_to_clipboard] they send carries one and the same path, which is
    the cached path when the cache had one. *)
Theorem repeated_picks_play_one_path picks pg (k : Z) :
  (∀ info play res, (info, play, res) ∈ picks →
     (∀ hit, res = Some hit → hit_id hit = k)
     ∧ ∃ path, info = Resolved path ∧ path ≠ "") →
  scatter (onPicks picks pg).1 = scatter pg
  ∧ (length (filter (λ c, c = GetFileInfo k) (onPicks picks pg).2) ≤ 1)%nat
  ∧ (∃ p, ∀ c, c ∈ (onPicks picks pg).2 →
        c = GetFileInfo k ∨ c = PlayFile p ∨ c = CopyToClipboard p)
  ∧ ∀ p, truthy (idToPath pg !! k) = Some p →
      ∀ c, c ∈ (onPicks picks pg).2 → c = PlayFile p ∨ c = CopyToClipboard p.
Proof.
  intros Hpicks.
  assert (Hk : ∀ info play res hit, (info, play, res) ∈ picks →
            res = Some hit → hit_id hit = k).
  { intros info play res hit Hin. by apply (proj1 (Hpicks info play res Hin)). }
  assert (Hnone : ∀ (sent : list Invoke) p,
            (∀ c, c ∈ sent → c = PlayFile p ∨ c = CopyToClipboard p) →
            filter (λ c, c = GetFileInfo k) sent = []).
  { intros sent p Hsent. induction sent as [| c sent IH]; [done |].
    rewrite filter_cons. destruct (decide (c = GetFileInfo k)) as [-> | _].
    - by destruct (Hsent (GetFileInfo k) (list_elem_of_here _ _)).
    - apply IH. intros c' Hc'. apply Hsent. by apply list_elem_of_further. }
  assert (Hcached : ∀ p, truthy (idToPath pg !! k) = Some p →
            scatter (onPicks picks pg).1 = scatter pg
            ∧ ∀ c, c ∈ (onPicks picks pg).2 →
                c = PlayFile p ∨ c = CopyToClipboard p).
  { intros p Hp. by destruct (onPicks_cached picks pg k p Hp Hk) as (? & _ & ?). }
  destruct (truthy (idToPath pg !! k)) as [p |] eqn:Hcache.
  { destruct (Hcached p eq_refl) as (Hs & Hsent).
    split; [done |]. split; [rewrite (Hnone _ p Hsent); simpl; lia |].
    split; [exists p; auto |]. by intros p' [= <-]. }
  clear Hcached.
  assert (scatter (onPicks picks pg).1 = scatter pg
          ∧ (length (filter (λ c, c = GetFileInfo k) (onPicks picks pg).2) ≤ 1)%nat
          ∧ ∃ p, ∀ c, c ∈ (onPicks picks pg).2 →
              c = GetFileInfo k ∨ c = PlayFile p ∨ c = CopyToClipboard p)
    as (Hs & Hcount & Hsent); [| by repeat split].
  clear Hk. revert pg Hcache.
  induction picks as [| [[info play] res] picks IH]; intros pg Hcache.
  { simpl. split; [done |]. split; [lia |]. exists "".
    intros c Hc. by apply elem_of_nil in Hc. }
  destruct (Hpicks info play res (list_elem_of_here _ _))
    as (Hid & path & -> & Hpath).
  assert (Hrest : ∀ info' play' res', (info', play', res') ∈ picks →
            (∀ hit, res' = Some hit → hit_id hit = k)
            ∧ ∃ path', info' = Resolved path' ∧ path' ≠ "").
  { intros info' play' res' Hin. apply (Hpicks info' play' res').
    by apply list_elem_of_further. }
  cbn [onPicks]. destruct res as [hit |]; cbn [onPick].
  - (* the path is asked for, cached and played *)
    unfold pickTask. rewrite (Hid hit eq_refl), Hcache.
    set (pg0 := {| scatter := scatter pg;
                   idToPath := <[k := path]> (idToPath pg);
                   currentPath := currentPath pg;
                   selPathText := selPathText pg |}).
    destruct (playPath_spec play path pg0) as (Hs1 & Hm1 & Hc1).
    destruct (playPath play path pg0) as [pg1 sent1]. cbn [fst snd] in *.
    assert (Hp1 : truthy (idToPath pg1 !! k) = Some path).
    { rewrite Hm1. unfold pg0. cbn [idToPath]. rewrite lookup_insert_eq.
      by apply truthy_Some. }
    destruct (onPicks_cached picks pg1 k path Hp1) as (Hs2 & _ & Hc2).
    { intros info' play' res' hit' Hin. by apply (proj1 (Hrest info' play' res' Hin)). }
    destruct (onPicks picks pg1) as [pg2 sent2]. cbn [fst snd app] in *.
    split; [by rewrite Hs2, Hs1 |]. split.
    + rewrite filter_cons, decide_True by done.
      rewrite filter_app, (Hnone sent1 path Hc1), (Hnone sent2 path Hc2). simpl. lia.
    + exists path. intros c Hc. apply elem_of_cons in Hc as [-> | Hc]; [by left |].
      right. apply elem_of_app in Hc as [Hc | Hc]; auto.
  - (* a null pick: nothing is queued *)
    destruct (IH Hrest pg Hcache) as (Hs2 & Hcount & p & Hsent).
    destruct (onPicks picks pg) as [pg2 sent2]. cbn [fst snd app] in *.
    split; [done |]. split; [done |]. by exists p.
Qed.

End Playing.

(** A witness for X17: two picks of the file 7; the backend names its path
    differently the second time, and playing fails the first time. *)
Lemma repeated_picks_play_one_path_witness :
  let hit := @Build_PickHit binary64 7%Z 0%float 0%float 0%float in
  let picks := [ (Resolved "a.wav", @Rejected unit, Some hit);
                 (Resolved "b.wav", Resolved tt, Some hit) ] in
  let pg := {| scatter := Scenario.start; idToPath := ∅;
               currentPath := None; selPathText := "" |} in
  (length (filter (λ c, c = GetFileInfo 7%Z) (onPicks picks pg).2) ≤ 1)%nat
  ∧ (onPicks picks pg).2
    = [ GetFileInfo 7%Z; PlayFile "a.wav"; PlayFile "a.wav";
        CopyToClipboard "a.wav" ].
Proof.
  split; [| reflexivity].
  refine (proj1 (proj2 (repeated_picks_play_one_path
    [ (Resolved "a.wav", @Rejected unit,
       Some (@Build_PickHit binary64 7%Z 0%float 0%float 0%float));
      (Resolved "b.wav", Resolved tt,
       Some (@Build_PickHit binary64 7%Z 0%float 0%float 0%float)) ]
    {| scatter := Scenario.start; idToPath := ∅;
       currentPath := None; selPathText := "" |} 7%Z _))).
  intros info play res Hin.
  apply elem_of_cons in Hin as [[= -> -> ->] | Hin].
  { split; [by intros hit [= <-] | by exists "a.wav"]. }
  apply list_elem_of_singleton in Hin as [= -> -> ->].
  split; [by intros hit [= <-] | by exists "b.wav"].
Defined.

(** ** The other mouse buttons *)

Section Idle.
Context {N : JsNum}.
Implicit Types (st : Scatter N).

(** X18. Only the secondary button pans: while no drag is under way,
    pressing any other button, moving the pointer and releasing change
    nothing in the viewer and draw no frame. *)
Theorem only_the_secondary_button_pans (evs : list (Event N)) st :
  dragging st = false → forallb idleMouse evs = true →
  run evs st = Ok st ∧ Forall (λ ev, frame ev st = Ok []) evs.
Proof.
  intros Hd Hevs. induction evs as [| ev evs IH]; [done |].
  simpl in Hevs. apply andb_true_iff in Hevs as [Hev Hevs].
  destruct (IH Hevs) as [Hrun Hframes].
  assert (Hstep : react ev st = Ok st ∧ frame ev st = Ok []).
  { destruct ev as [r | r fits | oid | smooth now | e | | e rect | e rect | tr now];
      try discriminate Hev; simpl.
    - unfold onMouseDown. simpl in Hev.
      by destruct (button e =? 2)%Z.
    - clear IH Hrun Hframes. unfold onMouseUp, set_drag.
      destruct st; simpl in *. by subst.
    - unfold onMouseMove. by rewrite Hd. }
  destruct Hstep as [Hreact Hframe]. split.
  - simpl. by rewrite Hreact.
  - by constructor.
Qed.

End Idle.

(** A witness for X18: the primary button is pressed, the pointer moves and
    the button is released. *)
Lemma only_the_secondary_button_pans_witness :
  let e0 := @Build_MouseEvent binary64 0%Z 0%float 0%float in
  let e1 := @Build_MouseEvent binary64 0%Z (F64.of_Z 120) 0%float in
  let evs := [MouseDown e0; MouseMove e1 Scenario.rect; MouseUp] in
  (dragging Scenario.start = false ∧ forallb idleMouse evs = true)
  ∧ run evs Scenario.start = Ok Scenario.start.
Proof.
  exact (conj (conj eq_refl eq_refl)
    (proj1 (only_the_secondary_button_pans
       [ MouseDown (@Build_MouseEvent binary64 0%Z 0%float 0%float);
         MouseMove (@Build_MouseEvent binary64 0%Z (F64.of_Z 120) 0%float)
           Scenario.rect;
         MouseUp ]
       Scenario.start eq_refl eq_refl))).
Defined.

(** ** The size of the points *)

Section PointSize.
Import PrimFloat.

(** X13. The size [draw] gives the points is 3/√scale kept within
    [1.5, 6], or NaN: with [v] the quotient 3/√scale as binary64 computes
    it, the size is NaN exactly when [v] is; otherwise it is 6 when [v] is
    above 6, 1.5 when [v] is not above 1.5, and [v] itself in between; so
    it is at least 1.5 and at most 6. *)
Theorem pointSize_is_clamped (st : Scatter binary64) :
  let v := (F64.lit 3.0 / sqrt (scale st))%float in
  is_nan (pointSize st) = is_nan v
  ∧ (is_nan v = false →
       (F64.lit 1.5 <=? pointSize st)%float = true
       ∧ (pointSize st <=? F64.lit 6.0)%float = true
       ∧ ((F64.lit 6.0 <? v)%float = true → pointSize st = F64.lit 6.0)
       ∧ ((F64.lit 1.5 <? v)%float = false → pointSize st = F64.lit 1.5)
       ∧ ((F64.lit 1.5 <? v)%float = true → (F64.lit 6.0 <? v)%float = false →
            pointSize st = v)).
Proof.
  intros v.
  change (pointSize st) with (F64.max (F64.lit 1.5) (F64.min (F64.lit 6.0) v)).
  assert (H15 : is_nan (F64.lit 1.5) = false) by reflexivity.
  assert (H6 : is_nan (F64.lit 6.0) = false) by reflexivity.
  assert (Hlt : (F64.lit 1.5 <? F64.lit 6.0)%float = true) by reflexivity.
  assert (Hs6 : get_sign (F64.lit 6.0) = false) by reflexivity.
  assert (Hs15 : get_sign (F64.lit 1.5) = false) by reflexivity.
  assert (Hle : (F64.lit 1.5 <=? F64.lit 6.0)%float = true) by reflexivity.
  assert (Hr15 : (F64.lit 1.5 <=? F64.lit 1.5)%float = true) by reflexivity.
  assert (Hr6 : (F64.lit 6.0 <=? F64.lit 6.0)%float = true) by reflexivity.
  assert (Hnan : is_nan nan = true) by reflexivity.
  generalize dependent (F64.lit 6.0). generalize dependent (F64.lit 1.5).
  intros lo Hlo Hslo Hrlo hi Hhi Hlt Hshi Hle Hrhi.
  unfold F64.max, F64.min. rewrite Hlo, Hhi. cbn [orb].
  destruct (is_nan v) eqn:Hv.
  { rewrite Hnan. split; [done | done]. }
  destruct (hi <? v)%float eqn:Hhv.
  - (* above the upper bound *)
    rewrite Hhi, Hlt. split; [done |]. intros _.
    split; [done |]. split; [done |]. split; [done |].
    split; [| done]. intros Hlv.
    (* [lo < hi < v], so [lo < v] *)
    pose proof (@nlt_trans binary64 binary64_order lo hi v Hlt Hhv) as Hc.
    simpl in Hc. congruence.
  - (* not above the upper bound: the minimum is [v] *)
    assert (Hmin : (if (v <? hi)%float then v else if get_sign hi then hi else v) = v).
    { destruct (v <? hi)%float; [done |]. by rewrite Hshi. }
    rewrite Hmin, Hv.
    assert (Hvh : (v <=? hi)%float = true) by (by apply F64Order.not_ltb_leb).
    destruct (lo <? v)%float eqn:Hlv.
    + split; [done |]. intros _.
      split; [by apply F64Order.ltb_leb |]. by repeat split.
    + assert (Hmax : (if (v <? lo)%float then lo else if get_sign lo then v else lo)
                     = lo).
      { destruct (v <? lo)%float; [done |]. by rewrite Hslo. }
      rewrite Hmax. split; [by rewrite Hlo |]. intros _. by repeat split.
Qed.

End PointSize.
